(** * promy: a Promise/A+ library with cancellation and notification

    A shallow embedding of [promy.py] and the verification of its
    specification.  Python objects live in an explicit store; every Python
    function of the module is a definition of the same name over a state and
    exception monad; the closures the module creates are constructors of
    [closure], one per [def]/[lambda] of the source.

    What the model takes from Python:
    - [inspect.isfunction] is true of function objects only; a bound method
      such as [p.then] of a [Promise] instance is callable and no function;
    - a call with a number of positional arguments the signature of the
      callee does not accept raises [TypeError] before the body runs;
    - the exceptions are instances of [Exception], the class the handlers of
      the module catch;
    - [set_timeout(fn, 0)] keeps the call and returns; the scheduler runs the
      calls it keeps one per turn, first in first out. *)

From stdpp Require Import base strings list gmap.
From Stdlib Require Import ZArith.

(** ** Python values *)

(** The methods of class [Promise]. *)
Inductive method := MThen | MCatch | MProgress | MCancel.

(** Values.  [VPromise p] is a reference to the instance of [Promise] stored
    at index [p] of the heap, [VObject o] a reference to an object of the
    host program, [VEvent d] the dict [{"detail": d}], [VFun c] a Python
    function object (what [def] and [lambda] create), [VMethod p m] the bound
    method [p.m] of a [Promise] instance.

    [closure] has one constructor for each function object the module
    creates, carrying the variables the function closes over, and [User u]
    for the functions of the host program. *)
Inductive value :=
| VNone
| VBool (b : bool)
| VInt (z : Z)
| VStr (s : string)
| VExc (cls msg : string)
| VEvent (detail : value)
| VPromise (p : nat)
| VObject (o : nat)
| VFun (c : closure)
| VMethod (p : nat) (m : method)
| VPromiseClass
with closure :=
| User (u : nat)
| EmptyFunction                                   (* _empty_function *)
| Emit (promise : nat) (tipe : string) (v : value)
                                                  (* lambda: _emit(promise, tipe, {"detail": v}) *)
| OnCancel (v : value)                            (* _handle_thenable.on_cancel *)
| OnDone (promise : nat) (v : value) (resolved : nat)
                                                  (* _handle_thenable.on_done *)
| OnFail (promise : nat) (resolved : nat)         (* _handle_thenable.on_fail *)
| OnProgress (promise : nat)                      (* _handle_thenable.on_progress *)
| Tryer (canceller : value)                       (* Promise.__init__.tryer *)
| Resolve (self : nat)                            (* Promise.__init__.resolve *)
| Reject (self : nat)                             (* Promise.__init__.reject *)
| Notify (self : nat)                             (* Promise.__init__.notify *)
| SettledDone (then_promise : nat) (done : value) (self : nat)
                                                  (* then.on_done(), receiver settled *)
| SettledFail (then_promise : nat) (fail : value) (self : nat)
                                                  (* then.on_fail(), receiver settled *)
| ThenDone (then_promise : nat) (done : value)    (* then.on_done(event) *)
| ThenFail (then_promise : nat) (fail : value)    (* then.on_fail(event) *)
| ThenProgress (then_promise : nat) (progress : value).
                                                  (* then.on_progress(event) *)

(** [inspect.isfunction(v)] is [isinstance(v, types.FunctionType)]: true of
    the objects [def] and [lambda] create, false of bound methods, classes
    and everything else. *)
Definition isfunction (v : value) : bool :=
  match v with VFun _ => true | _ => false end.

(** [a is b], for the operands the module compares: references. *)
Definition is_ (a b : value) : bool :=
  match a, b with
  | VPromise p, VPromise q => bool_decide (p = q)
  | VObject o, VObject o' => bool_decide (o = o')
  | VNone, VNone => true
  | _, _ => false
  end.

Definition TypeError (msg : string) : value := VExc "TypeError" msg.
Definition CancelException (msg : string) : value := VExc "CancelException" msg.

(** The [TypeError] Python raises when a function is called with a number of
    positional arguments its signature does not accept. *)
Definition arity_error : value :=
  TypeError "wrong number of positional arguments".
Definition not_callable : value := TypeError "object is not callable".
Definition not_subscriptable : value := TypeError "object is not subscriptable".

(** ** The host program *)

(** The body of a function of the host program, as the calls it makes: it
    returns, raises, or calls a function value and goes on with the result.
    An exception of the callee propagates out of the body. *)
Inductive ucode :=
| UReturn (v : value)
| URaise (e : value)
| UCall (f : value) (args : list value) (k : value → ucode).

(** The host program: the code of its functions, by name and arguments, and
    the [then] and [cancel] attributes of its objects ([VNone] when the
    object has none). *)
Record world := World {
  code : nat → list value → ucode;
  attr_then : nat → value;
  attr_cancel : nat → value
}.

(** ** The store *)

(** [obj._events[tipe]] is a listener or a list of listeners. *)
Inductive slot := One (f : value) | Many (funs : list value).

Record promise := Promise {
  _rejected : bool;
  _fulfilled : bool;
  _rejected_reason : value;
  _fulfillment_value : value;
  _settled : bool;
  _events : option (gmap string slot)
}.

(** [heap]: the [Promise] instances; [cells]: the one-element lists
    [resolved = [False]] of [_handle_thenable]; [queue]: the calls handed to
    [set_timeout(fn, 0, *args)] and not yet run, oldest first; [log]: the
    calls of functions of the host program, oldest first. *)
Record state := State {
  heap : list promise;
  cells : list bool;
  queue : list (value * list value);
  log : list (nat * list value)
}.

Definition empty_state : state := State [] [] [] [].

(** ** Computations *)

(** A computation ends with a value, with a Python exception, or is cut
    short: the recursion budget ran out, or a reference points outside the
    store.  The state reached is kept in every case. *)
Inductive halt := OutOfFuel | Dangling.

Inductive outcome (A : Type) :=
| Ok (a : A)
| Raise (e : value)
| Halt (h : halt).
Arguments Ok {A} a.
Arguments Raise {A} e.
Arguments Halt {A} h.

Definition M (A : Type) : Type := state → state * outcome A.

Definition ret {A} (a : A) : M A := λ s, (s, Ok a).
Definition raise {A} (e : value) : M A := λ s, (s, Raise e).
Definition halt_with {A} (h : halt) : M A := λ s, (s, Halt h).

Definition bind {A B} (m : M A) (k : A → M B) : M B :=
  λ s, match m s with
       | (s', Ok a) => k a s'
       | (s', Raise e) => (s', Raise e)
       | (s', Halt h) => (s', Halt h)
       end.

(** [try: m except Exception as e: handler e] *)
Definition try_except {A} (m : M A) (handler : value → M A) : M A :=
  λ s, match m s with
       | (s', Raise e) => handler e s'
       | r => r
       end.

Declare Scope py_scope.
Delimit Scope py_scope with py.
Notation "'do' x <- m ; k" := (bind m (λ x, k))
  (at level 10, x name, m at level 100, k at level 200) : py_scope.
Notation "m ;; k" := (bind m (λ _, k))
  (at level 100, k at level 200, right associativity) : py_scope.
Open Scope py_scope.

(** Attribute access on [Promise] instances. *)
Definition get_promise (p : nat) : M promise :=
  λ s, match heap s !! p with
       | Some pr => (s, Ok pr)
       | None => (s, Halt Dangling)
       end.

Definition set_heap (h : list promise) (s : state) : state :=
  State h (cells s) (queue s) (log s).

Definition update_promise (p : nat) (f : promise → promise) : M unit :=
  λ s, match heap s !! p with
       | Some pr => (set_heap (<[p := f pr]> (heap s)) s, Ok tt)
       | None => (s, Halt Dangling)
       end.

Definition set_rejected (b : bool) (pr : promise) : promise :=
  Promise b (_fulfilled pr) (_rejected_reason pr) (_fulfillment_value pr)
          (_settled pr) (_events pr).
Definition set_fulfilled (b : bool) (pr : promise) : promise :=
  Promise (_rejected pr) b (_rejected_reason pr) (_fulfillment_value pr)
          (_settled pr) (_events pr).
Definition set_rejected_reason (v : value) (pr : promise) : promise :=
  Promise (_rejected pr) (_fulfilled pr) v (_fulfillment_value pr)
          (_settled pr) (_events pr).
Definition set_fulfillment_value (v : value) (pr : promise) : promise :=
  Promise (_rejected pr) (_fulfilled pr) (_rejected_reason pr) v
          (_settled pr) (_events pr).
Definition set_settled (b : bool) (pr : promise) : promise :=
  Promise (_rejected pr) (_fulfilled pr) (_rejected_reason pr)
          (_fulfillment_value pr) b (_events pr).
Definition set_events (d : gmap string slot) (pr : promise) : promise :=
  Promise (_rejected pr) (_fulfilled pr) (_rejected_reason pr)
          (_fulfillment_value pr) (_settled pr) (Some d).

(** The object [object.__new__] makes, with the five attributes
    [Promise.__init__] sets first. *)
Definition new_promise : promise := Promise false false VNone VNone false None.

Definition alloc_promise : M nat :=
  λ s, (set_heap (heap s ++ [new_promise]) s, Ok (length (heap s))).

(** [resolved = [False]], [resolved[0]] and [resolved[0] = True]. *)
Definition new_cell : M nat :=
  λ s, (State (heap s) (cells s ++ [false]) (queue s) (log s),
        Ok (length (cells s))).

Definition get_cell (c : nat) : M bool :=
  λ s, match cells s !! c with
       | Some b => (s, Ok b)
       | None => (s, Halt Dangling)
       end.

Definition set_cell (c : nat) (b : bool) : M unit :=
  λ s, (State (heap s) (<[c := b]> (cells s)) (queue s) (log s), Ok tt).

Definition log_call (u : nat) (args : list value) : M unit :=
  λ s, (State (heap s) (cells s) (queue s) (log s ++ [(u, args)]), Ok tt).

(** [_async] hands [fn] and its arguments to [set_timeout]: the scheduler keeps
    the call and runs it on a later turn, first in first out. *)
Definition _async (fn : value) (lyst : list value) : M unit :=
  λ s, (State (heap s) (cells s) (queue s ++ [(fn, lyst)]) (log s), Ok tt).

(** [event["detail"]] *)
Definition detail_of (event : value) : M value :=
  match event with
  | VEvent d => ret d
  | _ => raise not_subscriptable
  end.

(** ** The module *)

Section Module.
Variable W : world.

(** [call f args] is the Python call of the value [f] with the positional
    arguments [args]: the recursion of the interpreter goes through it
    alone. *)
Variable call : value → list value → M value.

(** [getattr(v, "then", None)] and [getattr(v, "cancel", None)]: an
    attribute of an object of the host program, a bound method of a
    [Promise] instance, nothing on the other values. *)
Definition getattr_then (v : value) : value :=
  match v with
  | VObject o => attr_then W o
  | VPromise p => VMethod p MThen
  | _ => VNone
  end.

Definition getattr_cancel (v : value) : value :=
  match v with
  | VObject o => attr_cancel W o
  | VPromise p => VMethod p MCancel
  | _ => VNone
  end.

Definition _on (obj : nat) (tipe : string) (listener : value) : M value :=
  do pr <- get_promise obj;
  let events := default ∅ (_events pr) in
  match events !! tipe with
  | None => update_promise obj (set_events (<[tipe := One listener]> events))
  | Some (One f) =>
      if isfunction f
      then update_promise obj
             (set_events (<[tipe := Many [f; listener]]> events))
      else ret tt
  | Some (Many funs) =>
      update_promise obj
        (set_events (<[tipe := Many (funs ++ [listener])]> events))
  end ;;
  ret (VPromise obj).

(** [for fun in funs:] call [fun] with the arguments [lyst]. *)
Fixpoint for_each (funs : list value) (lyst : list value) : M unit :=
  match funs with
  | [] => ret tt
  | fn :: funs' => call fn lyst ;; for_each funs' lyst
  end.

Definition _emit (obj : nat) (tipe : string) (lyst : list value) : M value :=
  do pr <- get_promise obj;
  match _events pr with
  | None => ret (VPromise obj)
  | Some events =>
      match events !! tipe with
      | None => ret (VPromise obj)
      | Some (One funs) =>
          if isfunction funs
          then call funs lyst ;; ret (VPromise obj)
          else ret (VPromise obj)
      | Some (Many funs) => for_each funs lyst ;; ret (VPromise obj)
      end
  end.

Definition _fulfill (promise : nat) (v : value) : M unit :=
  do pr <- get_promise promise;
  if _settled pr then ret tt else
  update_promise promise (set_fulfilled true) ;;
  update_promise promise (set_settled true) ;;
  update_promise promise (set_fulfillment_value v) ;;
  _async (VFun (Emit promise "promise:resolved" v)) [].

Definition _reject (promise : nat) (v : value) : M unit :=
  do pr <- get_promise promise;
  if _settled pr then ret tt else
  update_promise promise (set_rejected true) ;;
  update_promise promise (set_settled true) ;;
  update_promise promise (set_rejected_reason v) ;;
  _async (VFun (Emit promise "promise:rejected" v)) [].

Definition _notify (promise : nat) (v : value) : M unit :=
  do pr <- get_promise promise;
  if _settled pr then ret tt else
  _async (VFun (Emit promise "promise:notified" v)) [].

Definition _cancel (promise : nat) : M unit :=
  let v := CancelException "Cancelled" in
  do pr <- get_promise promise;
  if _settled pr then ret tt else
  update_promise promise (set_rejected true) ;;
  update_promise promise (set_settled true) ;;
  update_promise promise (set_rejected_reason v) ;;
  _emit promise "promise:cancelled" [VEvent VNone] ;;
  _async (VFun (Emit promise "promise:rejected" v)) [].

(** Returns [True] when the value was taken over or the promise was
    rejected, [False] when the value is not a thenable. *)
Definition _handle_thenable (promise : nat) (v : value) : M bool :=
  do resolved <- new_cell;
  try_except
    (if is_ (VPromise promise) v
     then raise (TypeError "A promise callback cannot return that same promise.")
     else if isfunction (getattr_then v)
     then
       _on promise "promise:cancelled" (VFun (OnCancel v)) ;;
       call (getattr_then v)
            [VFun (OnDone promise v resolved);
             VFun (OnFail promise resolved);
             VFun (OnProgress promise)] ;;
       ret true
     else ret false)
    (λ error, _reject promise error ;; ret true).

Definition _resolve (promise : nat) (v : value) : M unit :=
  if is_ (VPromise promise) v then _fulfill promise v
  else
    do handled <- _handle_thenable promise v;
    if negb handled then _fulfill promise v else ret tt.

(** The closures of [_handle_thenable]. *)
Definition on_cancel (v : value) : M value :=
  try_except
    (if isfunction (getattr_cancel v)
     then call (getattr_cancel v) [] ;; ret VNone
     else ret VNone)
    (λ _, ret VNone).

Definition on_done (promise : nat) (v : value) (resolved : nat)
           (val : value) : M value :=
  do r <- get_cell resolved;
  if r then ret (VBool true) else
  set_cell resolved true ;;
  (if negb (is_ v val) then _resolve promise val else _fulfill promise val) ;;
  ret VNone.

Definition on_fail (promise : nat) (resolved : nat) (val : value) : M value :=
  do r <- get_cell resolved;
  if r then ret (VBool true) else
  set_cell resolved true ;;
  _reject promise val ;;
  ret VNone.

Definition on_progress (promise : nat) (notification : value) : M value :=
  _notify promise notification ;; ret VNone.

(** The local variables [succeeded], [failed], [error] and [value] of
    [_invoke_callback] after its first [if]; the branch without a callback
    assigns [succeded], another variable, and leaves [succeeded] false. *)
Record locals := Locals {
  succeeded : bool; failed : bool; error : value; value_ : value
}.

Definition _invoke_callback (resolver : nat → value → M unit)
           (promise : nat) (callback : value) (event : value) : M unit :=
  do pr <- get_promise promise;
  if _settled pr then ret tt else
  let has_callback := isfunction callback in
  do l <- (if has_callback
           then try_except
                  (do d <- detail_of event;
                   do v <- call callback [d];
                   ret (Locals true false VNone v))
                  (λ e, ret (Locals false true e VNone))
           else do d <- detail_of event;
                ret (Locals false false VNone d));
  do handled <- _handle_thenable promise (value_ l);
  if handled then ret tt
  else if has_callback && succeeded l then _resolve promise (value_ l)
  else if failed l then _reject promise (error l)
  else resolver promise (value_ l).

Definition _invoke_notify_callback (promise : nat) (callback : value)
           (event : value) : M unit :=
  do pr <- get_promise promise;
  if _settled pr then ret tt else
  if isfunction callback
  then
    do r <- try_except
              (do d <- detail_of event;
               do v <- call callback [d];
               ret (Some v))
              (λ _, ret None);
    match r with
    | Some v => _notify promise v
    | None => ret tt                                   (* stop propagation *)
    end
  else do d <- detail_of event; _notify promise d.

(** *** class Promise *)

Definition Promise_init (executor canceller : value) : M nat :=
  do self <- alloc_promise;
  if negb (isfunction executor)
  then raise (TypeError
         "Promise(executor[, canceller]): executor must be a function")
  else
  (if isfunction canceller
   then _on self "promise:cancelled" (VFun (Tryer canceller)) ;; ret tt
   else ret tt) ;;
  try_except
    (call executor
          [VFun (Resolve self); VFun (Reject self); VFun (Notify self)] ;;
     ret tt)
    (λ e, _reject self e) ;;
  ret self.

Definition Promise_then (self : nat) (done fail progress : value) : M value :=
  do then_promise <- Promise_init (VFun EmptyFunction) VNone;
  do pr <- get_promise self;
  (if _settled pr
   then
     (if _fulfilled pr
      then _async (VFun (SettledDone then_promise done self)) []
      else ret tt) ;;
     (if _rejected pr
      then _async (VFun (SettledFail then_promise fail self)) []
      else ret tt)
   else
     _on self "promise:resolved" (VFun (ThenDone then_promise done)) ;;
     _on self "promise:rejected" (VFun (ThenFail then_promise fail)) ;;
     ret tt) ;;
  _on self "promise:notified" (VFun (ThenProgress then_promise progress)) ;;
  ret (VPromise then_promise).

Definition Promise_catch (self : nat) (fail : value) : M value :=
  Promise_then self VNone fail VNone.

Definition Promise_progress (self : nat) (progress : value) : M value :=
  Promise_then self VNone VNone progress.

Definition Promise_cancel (self : nat) : M value :=
  do pr <- get_promise self;
  (if negb (_settled pr) then _cancel self else ret tt) ;;
  ret (VPromise self).

(** The closures of [Promise.__init__] and [Promise.then]. *)
Definition tryer (canceller : value) : M value :=
  try_except (call canceller [] ;; ret VNone) (λ _, ret VNone).

Definition settled_on_done (then_promise : nat) (done : value) (self : nat)
  : M value :=
  do pr <- get_promise self;
  _invoke_callback _resolve then_promise done
                   (VEvent (_fulfillment_value pr)) ;;
  ret VNone.

Definition settled_on_fail (then_promise : nat) (fail : value) (self : nat)
  : M value :=
  do pr <- get_promise self;
  _invoke_callback _reject then_promise fail
                   (VEvent (_rejected_reason pr)) ;;
  ret VNone.

(** *** Calls *)

(** The body of a function of the host program. *)
Fixpoint run_ucode (c : ucode) : M value :=
  match c with
  | UReturn v => ret v
  | URaise e => raise e
  | UCall f args k => do r <- call f args; run_ucode (k r)
  end.

(** The call of a function object: its body, when the arguments fit its
    signature, and [TypeError] otherwise. *)
Definition invoke_closure (c : closure) (args : list value) : M value :=
  match c, args with
  | User u, _ => log_call u args ;; run_ucode (code W u args)
  | EmptyFunction, _ => ret VNone
  | Emit promise tipe v, [] => _emit promise tipe [VEvent v]
  | OnCancel v, [] => on_cancel v
  | OnDone promise v resolved, [val] => on_done promise v resolved val
  | OnFail promise resolved, [val] => on_fail promise resolved val
  | OnProgress promise, [notification] => on_progress promise notification
  | Tryer canceller, [] => tryer canceller
  | Resolve self, [answer] => _resolve self answer ;; ret VNone
  | Reject self, [reason] => _reject self reason ;; ret VNone
  | Notify self, [notification] => _notify self notification ;; ret VNone
  | SettledDone then_promise done self, [] =>
      settled_on_done then_promise done self
  | SettledFail then_promise fail self, [] =>
      settled_on_fail then_promise fail self
  | ThenDone then_promise done, [event] =>
      _invoke_callback _resolve then_promise done event ;; ret VNone
  | ThenFail then_promise fail, [event] =>
      _invoke_callback _reject then_promise fail event ;; ret VNone
  | ThenProgress then_promise progress, [event] =>
      _invoke_notify_callback then_promise progress event ;; ret VNone
  | _, _ => raise arity_error
  end.

(** The call of a bound method of a [Promise] instance; parameters left
    out take their default, [None]. *)
Definition invoke_method (p : nat) (m : method) (args : list value)
  : M value :=
  match m, args with
  | MThen, [] => Promise_then p VNone VNone VNone
  | MThen, [done] => Promise_then p done VNone VNone
  | MThen, [done; fail] => Promise_then p done fail VNone
  | MThen, [done; fail; progress] => Promise_then p done fail progress
  | MCatch, [] => Promise_catch p VNone
  | MCatch, [fail] => Promise_catch p fail
  | MProgress, [] => Promise_progress p VNone
  | MProgress, [progress] => Promise_progress p progress
  | MCancel, [] => Promise_cancel p
  | _, _ => raise arity_error
  end.

Definition invoke (f : value) (args : list value) : M value :=
  match f with
  | VFun c => invoke_closure c args
  | VMethod p m => invoke_method p m args
  | VPromiseClass =>
      match args with
      | [executor] => do p <- Promise_init executor VNone; ret (VPromise p)
      | [executor; canceller] =>
          do p <- Promise_init executor canceller; ret (VPromise p)
      | _ => raise arity_error
      end
  | _ => raise not_callable
  end.
End Module.

(** [call W fuel f args]: the call of [f] with [args], with at most [fuel]
    calls nested in one another. *)
Fixpoint call (W : world) (fuel : nat) (f : value) (args : list value)
  : M value :=
  match fuel with
  | 0 => halt_with OutOfFuel
  | S fuel' => invoke W (call W fuel') f args
  end.

(** One turn of the scheduler: the oldest call of the queue is run. *)
Definition tick (W : world) (fuel : nat) : M value :=
  λ s, match queue s with
       | [] => (s, Ok VNone)
       | (fn, lyst) :: q => call W fuel fn lyst (State (heap s) (cells s) q (log s))
       end.

(** ** Notions of the specification *)

(** The flags of a promise agree: it is settled exactly when it is fulfilled
    or rejected, and it is not both. *)
Definition consistent (pr : promise) : Prop :=
  _settled pr = _fulfilled pr || _rejected pr ∧
  _fulfilled pr && _rejected pr = false.

Definition invariant (s : state) : Prop :=
  ∀ p pr, heap s !! p = Some pr → consistent pr.

(** The state and the stored outcome of two versions of a promise are the
    same; the listeners may differ. *)
Definition same_outcome (pr pr' : promise) : Prop :=
  _rejected pr' = _rejected pr ∧
  _fulfilled pr' = _fulfilled pr ∧
  _rejected_reason pr' = _rejected_reason pr ∧
  _fulfillment_value pr' = _fulfillment_value pr ∧
  _settled pr' = _settled pr.

(** What every computation does to a promise, and to the store: a settled
    promise keeps its state and outcome, consistent flags stay consistent,
    no promise disappears and the new ones are consistent. *)
Definition promise_evolves (pr pr' : promise) : Prop :=
  (_settled pr = true → same_outcome pr pr') ∧
  (consistent pr → consistent pr').

Definition evolves (s s' : state) : Prop :=
  (∀ p pr, heap s !! p = Some pr →
     ∃ pr', heap s' !! p = Some pr' ∧ promise_evolves pr pr') ∧
  (∀ p pr', heap s' !! p = Some pr' → heap s !! p = None → consistent pr').

Definition preserving {A} (m : M A) : Prop := ∀ s, evolves s (m s).1.

(** A computation that raises no exception. *)
Definition no_raise {A} (m : M A) : Prop := ∀ s e, (m s).2 ≠ Raise e.

(** The promise [pr] once fulfilled with [v], once rejected with [v]. *)
Definition fulfilled_with (v : value) (pr : promise) : promise :=
  Promise (_rejected pr) true (_rejected_reason pr) v true (_events pr).

Definition rejected_with (v : value) (pr : promise) : promise :=
  Promise true (_fulfilled pr) v (_fulfillment_value pr) true (_events pr).

Definition store (p : nat) (pr : promise) (s : state) : state :=
  set_heap (<[p := pr]> (heap s)) s.

Definition scheduled (fn : value) (lyst : list value) (s : state) : state :=
  State (heap s) (cells s) (queue s ++ [(fn, lyst)]) (log s).

(** The settlement operations of a promise, and their application in
    sequence. *)
Inductive settlement :=
| Fulfill (v : value)
| RejectWith (v : value)
| Cancel.

Definition settle (call : value → list value → M value) (p : nat)
           (op : settlement) : M unit :=
  match op with
  | Fulfill v => _fulfill p v
  | RejectWith v => _reject p v
  | Cancel => _cancel call p
  end.

Fixpoint settle_all (call : value → list value → M value) (p : nat)
         (ops : list settlement) : M unit :=
  match ops with
  | [] => ret tt
  | op :: ops' => settle call p op ;; settle_all call p ops'
  end.

(** The promise a pending promise [pr] becomes by the settlement [op]. *)
Definition settled_by (op : settlement) (pr : promise) : promise :=
  match op with
  | Fulfill v => fulfilled_with v pr
  | RejectWith v => rejected_with v pr
  | Cancel => rejected_with (CancelException "Cancelled") pr
  end.

(** What the host program and the scheduler do, one action after the other:
    a call of a function value (the class, a bound method, a closure handed
    out by the module), or a turn of the scheduler. *)
Inductive action :=
| Call (f : value) (args : list value)
| Turn.

Definition step (W : world) (s : state) (a : nat * action) : state :=
  match a with
  | (fuel, Call f args) => (call W fuel f args s).1
  | (fuel, Turn) => (tick W fuel s).1
  end.

Definition reach (W : world) (acts : list (nat * action)) : state :=
  foldl (step W) empty_state acts.

(** The state after [resolved = [False]]. *)
Definition with_cell (s : state) : state :=
  State (heap s) (cells s ++ [false]) (queue s) (log s).

(** The listeners [_emit] calls for an event kind, in order. *)
Definition listeners (pr : promise) (tipe : string) : list value :=
  match _events pr with
  | None => []
  | Some events =>
      match events !! tipe with
      | None => []
      | Some (One f) => if isfunction f then [f] else []
      | Some (Many funs) => funs
      end
  end.

(** The listeners [Promise.then] registers for the resolved, rejected and
    notified events, and those [Promise.__init__] and [_handle_thenable]
    register for the cancelled event. *)
Definition is_reaction (f : value) : bool :=
  match f with
  | VFun (ThenDone _ _) | VFun (ThenFail _ _) | VFun (ThenProgress _ _) => true
  | _ => false
  end.

Definition is_cancel_listener (f : value) : bool :=
  match f with
  | VFun (Tryer _) | VFun (OnCancel _) => true
  | _ => false
  end.

(** The emission as the specification words it: every listener of the
    snapshot is called in turn, and an exception of a listener is discarded
    before the next one is called. *)
Fixpoint for_each_isolated (call : value → list value → M value)
         (funs : list value) (lyst : list value) : M unit :=
  match funs with
  | [] => ret tt
  | fn :: funs' =>
      try_except (call fn lyst ;; ret tt) (λ _, ret tt) ;;
      for_each_isolated call funs' lyst
  end.

Definition emit_isolated (call : value → list value → M value)
           (obj : nat) (tipe : string) (lyst : list value) : M value :=
  do pr <- get_promise obj;
  for_each_isolated call (listeners pr tipe) lyst ;;
  ret (VPromise obj).

(** ** A host program

    The functions and objects of a small host program, for the concrete
    runs below.  [boom] is the exception its failing functions raise. *)
Definition boom : value := VExc "Exception" "boom".

Definition host_code (u : nat) (args : list value) : ucode :=
  match u with
  | 0 => UReturn VNone                  (* an executor that does nothing *)
  | 1 => UReturn VNone                  (* a canceller *)
  | 2 => UCall (nth 0 args VNone) [VObject 0] (λ _, UReturn VNone)
                                        (* then(done, fail, progress): done(object 0) *)
  | 3 => UCall (nth 0 args VNone) [VObject 0] (λ _, UReturn VNone)
                                        (* executor: resolve(object 0) *)
  | 4 => URaise boom                    (* a function that raises *)
  | 5 => UReturn VNone                  (* a listener *)
  | 6 => UCall (nth 0 args VNone) [VInt 5] (λ _, UReturn VNone)
                                        (* then(done, fail, progress): done(5) *)
  | 7 => UCall (nth 1 args VNone) [VObject 1] (λ _, UReturn VNone)
                                        (* executor: reject(object 1) *)
  | 8 => UCall (nth 2 args VNone) [VInt 1]
           (λ _, UCall (nth 0 args VNone) [VInt 2] (λ _, UReturn VNone))
                                        (* executor: notify(1); resolve(2) *)
  | 9 => UReturn (nth 0 args VNone)     (* a handler that returns its argument *)
  | 10 => UReturn (VPromise 1)          (* a handler that returns promise 1 *)
  | 11 => UCall (nth 1 args VNone) [VInt 7] (λ _, UReturn VNone)
                                        (* executor: reject(7) *)
  | _ => UReturn VNone
  end.

(** Object 0 has a [then] function that fulfils with the object itself,
    object 1 one that fulfils with [5]; neither has a [cancel]. *)
Definition host : world :=
  World host_code
        (λ o, match o with
              | 0 => VFun (User 2)
              | 1 => VFun (User 6)
              | _ => VNone
              end)
        (λ _, VNone).

(** The call [Promise(executor)] and the method calls of the host program,
    as actions. *)
Definition construct (executor : value) : action :=
  Call VPromiseClass [executor].
Definition construct_with (executor canceller : value) : action :=
  Call VPromiseClass [executor; canceller].

(** *** Concrete runs *)

(** A pending promise, and the same with two listeners registered straight
    through [_on]: a function that raises and one that returns. *)
Definition run_pending : state :=
  reach host [(5, construct (VFun (User 0)))].

Definition run_two_listeners : state :=
  ((_on 0 "promise:notified" (VFun (User 4)) ;;
    _on 0 "promise:notified" (VFun (User 5))) run_pending).1.

(** A pending promise with two [then] reactions, the first with a handler
    that raises. *)
Definition run_two_reactions : state :=
  reach host [(5, construct (VFun (User 0)));
              (5, Call (VMethod 0 MThen) [VFun (User 4)]);
              (5, Call (VMethod 0 MThen) [VFun (User 9)])].

(** A pending promise with two progress handlers, the first one raises. *)
Definition run_two_progress : state :=
  reach host [(5, construct (VFun (User 0)));
              (5, Call (VMethod 0 MProgress) [VFun (User 4)]);
              (5, Call (VMethod 0 MProgress) [VFun (User 9)])].

(** A pending promise constructed with a canceller. *)
Definition run_canceller : state :=
  reach host [(5, construct_with (VFun (User 0)) (VFun (User 1)))].

(** A pending promise and a promise derived from it with a handler that
    returns the derived promise. *)
Definition run_returns_derived : state :=
  reach host [(5, construct (VFun (User 0)));
              (5, Call (VMethod 0 MThen) [VFun (User 10)])].

(** A promise whose executor notifies and then resolves, with a progress
    handler registered afterwards. *)
Definition run_notify_then_resolve : state :=
  reach host [(5, construct (VFun (User 8)));
              (5, Call (VMethod 0 MProgress) [VFun (User 9)])].

(** The promise stored at [p], and a pending promise when there is none. *)
Definition promise_at (s : state) (p : nat) : promise :=
  default new_promise (heap s !! p).

(** The state after [Promise.__new__] and the first assignments of
    [__init__], and the state after [resolved[0] = True]. *)
Definition allocated (s : state) : state :=
  set_heap (heap s ++ [new_promise]) s.

Definition cell_set (c : nat) (s : state) : state :=
  State (heap s) (<[c := true]> (cells s)) (queue s) (log s).

(** The promise [pr] after [_on(pr, tipe, listener)]. *)
Definition registered (tipe : string) (listener : value) (pr : promise)
  : promise :=
  let events := default ∅ (_events pr) in
  match events !! tipe with
  | None => set_events (<[tipe := One listener]> events) pr
  | Some (One f) =>
      if isfunction f
      then set_events (<[tipe := Many [f; listener]]> events) pr
      else pr
  | Some (Many funs) =>
      set_events (<[tipe := Many (funs ++ [listener])]> events) pr
  end.

(** A promise rejected by its executor with [7], and one rejected with
    object 1, a thenable. *)
Definition run_rejected : state :=
  reach host [(9, construct (VFun (User 11)))].

Definition run_rejected_with_thenable : state :=
  reach host [(9, construct (VFun (User 7)))].

(** A promise fulfilled by its executor with [2] (after a notification). *)
Definition run_fulfilled : state :=
  reach host [(9, construct (VFun (User 8)))].

(** A promise whose executor resolves it with object 0, a thenable that
    fulfils with itself. *)
Definition run_adopts_self_fulfilling : state :=
  reach host [(9, construct (VFun (User 3)))].

(** ** Further notions *)

(** What a call into the module does to the store besides the promises:
    promises are only added, the calls the scheduler keeps and the log are
    only appended to, guards are only added, and a guard that is set stays
    set. *)
Definition grows (s s' : state) : Prop :=
  length (heap s) ≤ length (heap s') ∧
  queue s `prefix_of` queue s' ∧
  log s `prefix_of` log s' ∧
  length (cells s) ≤ length (cells s') ∧
  ∀ c, cells s !! c = Some true → cells s' !! c = Some true.

Definition growing {A} (m : M A) : Prop := ∀ s, grows s (m s).1.

(** The state after the call of the function [u] of the host program has
    been logged. *)
Definition logged (u : nat) (args : list value) (s : state) : state :=
  State (heap s) (cells s) (queue s) (log s ++ [(u, args)]).

(** The slot of an event kind holds a function or a list: what [_on] leaves
    there. *)
Definition slot_ok (pr : promise) (tipe : string) : Prop :=
  ∀ f, default ∅ (_events pr) !! tipe = Some (One f) → isfunction f = true.

(** The promise after [_on] for each listener of a list, in order. *)
Definition registered_all (tipe : string) (ls : list value) (pr : promise)
  : promise :=
  foldl (λ pr l, registered tipe l pr) pr ls.

(** The closures the module hands to the executor, and those it hands to
    the scheduler or registers as reactions. *)
Definition is_capability (f : value) : bool :=
  match f with
  | VFun (Resolve _) | VFun (Reject _) | VFun (Notify _) => true
  | _ => false
  end.

Definition is_settled_reaction (f : value) : bool :=
  match f with
  | VFun (SettledDone _ _ _) | VFun (SettledFail _ _ _) => true
  | _ => false
  end.

(** The promise a reaction closure settles. *)
Definition reaction_target (f : value) : option nat :=
  match f with
  | VFun (ThenDone t _) | VFun (ThenFail t _) | VFun (ThenProgress t _)
  | VFun (SettledDone t _ _) | VFun (SettledFail t _ _) => Some t
  | _ => None
  end.

(** The arguments a reaction closure is called with: the event for a
    listener, nothing for a scheduled reaction. *)
Definition reaction_args (f : value) (d : value) : list value :=
  if is_settled_reaction f then [] else [VEvent d].

(** [_on(obj, tipe, l)] for each listener [l] of a list, in order. *)
Fixpoint on_all (obj : nat) (tipe : string) (ls : list value) : M unit :=
  match ls with
  | [] => ret tt
  | l :: ls' => _on obj tipe l ;; on_all obj tipe ls'
  end.

(** The receiver a scheduled reaction reads the outcome of. *)
Definition reaction_receiver (f : value) : option nat :=
  match f with
  | VFun (SettledDone _ _ self) | VFun (SettledFail _ _ self) => Some self
  | _ => None
  end.

(** The message of the [TypeError] of [Promise.__init__]. *)
Definition executor_error : value :=
  TypeError "Promise(executor[, canceller]): executor must be a function".

(** A promise whose executor raises [boom]. *)
Definition run_executor_raises : state * outcome nat :=
  Promise_init (call host 5) (VFun (User 4)) VNone empty_state.

(** Two orders of the same program: [then] with a handler on a promise
    that is fulfilled afterwards, and [then] with the same handler on the
    promise once it has been fulfilled; the scheduler runs until its queue
    is empty of what these calls put there. *)
Definition then_first (W : world) (fuel p : nat) (done v : value)
           (s : state) : state :=
  foldl (step W) s
        [(fuel, Call (VMethod p MThen) [done]);
         (fuel, Call (VFun (Resolve p)) [v]);
         (fuel, Turn)].

Definition then_last (W : world) (fuel p : nat) (done v : value)
           (s : state) : state :=
  foldl (step W) s
        [(fuel, Call (VFun (Resolve p)) [v]);
         (fuel, Call (VMethod p MThen) [done]);
         (fuel, Turn);
         (fuel, Turn)].

(** A progress handler registered with [then] or [progress]: the derived
    promise, the function of the host program, and the value the function
    returns for the notification at hand. *)
Record progress_handler := ProgressHandler {
  derived : nat;
  handler : nat;
  returned : value
}.

Definition progress_listener (h : progress_handler) : value :=
  VFun (ThenProgress (derived h) (VFun (User (handler h)))).

(** The state after every handler of the list has been called with [v] and
    its result has been scheduled as the notification of its derived
    promise. *)
Definition notified_all (v : value) (hs : list progress_handler) (s : state)
  : state :=
  State (heap s) (cells s)
        (queue s ++ map (λ h, (VFun (Emit (derived h) "promise:notified"
                                          (returned h)), [])) hs)
        (log s ++ map (λ h, (handler h, [v])) hs).

(** * Verification *)

(** ** The monad *)

Lemma bind_Ok {A B} (m : M A) (k : A → M B) s s' a :
  m s = (s', Ok a) → bind m k s = k a s'.
Proof. intros H. unfold bind. by rewrite H. Qed.

Lemma bind_Raise {A B} (m : M A) (k : A → M B) s s' e :
  m s = (s', Raise e) → bind m k s = (s', Raise e).
Proof. intros H. unfold bind. by rewrite H. Qed.

Lemma bind_Halt {A B} (m : M A) (k : A → M B) s s' h :
  m s = (s', Halt h) → bind m k s = (s', Halt h).
Proof. intros H. unfold bind. by rewrite H. Qed.

Lemma get_promise_Some p pr s :
  heap s !! p = Some pr → get_promise p s = (s, Ok pr).
Proof. intros H. unfold get_promise. by rewrite H. Qed.

Lemma update_promise_Some p f pr s :
  heap s !! p = Some pr → update_promise p f s = (store p (f pr) s, Ok tt).
Proof. intros H. unfold update_promise. by rewrite H. Qed.

Lemma store_lookup p pr pr0 s :
  heap s !! p = Some pr0 → heap (store p pr s) !! p = Some pr.
Proof.
  intros H. simpl. apply list_lookup_insert_eq. by eapply lookup_lt_Some.
Qed.

Lemma store_lookup_ne p q pr s :
  p ≠ q → heap (store p pr s) !! q = heap s !! q.
Proof. intros H. simpl. by apply list_lookup_insert_ne. Qed.

Lemma store_store p pr pr' s : store p pr' (store p pr s) = store p pr' s.
Proof. unfold store, set_heap. simpl. by rewrite list_insert_insert_eq. Qed.

(** ** The settlement operations, as one update of the store *)

Lemma _fulfill_settled p v pr s :
  heap s !! p = Some pr → _settled pr = true → _fulfill p v s = (s, Ok tt).
Proof.
  intros H Hs. unfold _fulfill.
  rewrite (bind_Ok _ _ _ _ _ (get_promise_Some _ _ _ H)). by rewrite Hs.
Qed.

Lemma _fulfill_pending p v pr s :
  heap s !! p = Some pr → _settled pr = false →
  _fulfill p v s =
    (scheduled (VFun (Emit p "promise:resolved" v)) []
       (store p (fulfilled_with v pr) s), Ok tt).
Proof.
  intros H Hs. unfold _fulfill.
  rewrite (bind_Ok _ _ _ _ _ (get_promise_Some _ _ _ H)). rewrite Hs.
  rewrite (bind_Ok _ _ _ _ _ (update_promise_Some _ _ _ _ H)).
  rewrite (bind_Ok _ _ _ _ _
             (update_promise_Some _ _ _ _ (store_lookup _ _ _ _ H))).
  rewrite store_store.
  rewrite (bind_Ok _ _ _ _ _
             (update_promise_Some _ _ _ _ (store_lookup _ _ _ _ H))).
  rewrite store_store. reflexivity.
Qed.

Lemma _reject_settled p v pr s :
  heap s !! p = Some pr → _settled pr = true → _reject p v s = (s, Ok tt).
Proof.
  intros H Hs. unfold _reject.
  rewrite (bind_Ok _ _ _ _ _ (get_promise_Some _ _ _ H)). by rewrite Hs.
Qed.

Lemma _reject_pending p v pr s :
  heap s !! p = Some pr → _settled pr = false →
  _reject p v s =
    (scheduled (VFun (Emit p "promise:rejected" v)) []
       (store p (rejected_with v pr) s), Ok tt).
Proof.
  intros H Hs. unfold _reject.
  rewrite (bind_Ok _ _ _ _ _ (get_promise_Some _ _ _ H)). rewrite Hs.
  rewrite (bind_Ok _ _ _ _ _ (update_promise_Some _ _ _ _ H)).
  rewrite (bind_Ok _ _ _ _ _
             (update_promise_Some _ _ _ _ (store_lookup _ _ _ _ H))).
  rewrite store_store.
  rewrite (bind_Ok _ _ _ _ _
             (update_promise_Some _ _ _ _ (store_lookup _ _ _ _ H))).
  rewrite store_store. reflexivity.
Qed.

Lemma _notify_settled p v pr s :
  heap s !! p = Some pr → _settled pr = true → _notify p v s = (s, Ok tt).
Proof.
  intros H Hs. unfold _notify.
  rewrite (bind_Ok _ _ _ _ _ (get_promise_Some _ _ _ H)). by rewrite Hs.
Qed.

Lemma _notify_pending p v pr s :
  heap s !! p = Some pr → _settled pr = false →
  _notify p v s = (scheduled (VFun (Emit p "promise:notified" v)) [] s, Ok tt).
Proof.
  intros H Hs. unfold _notify.
  rewrite (bind_Ok _ _ _ _ _ (get_promise_Some _ _ _ H)). by rewrite Hs.
Qed.

Lemma _cancel_settled call p pr s :
  heap s !! p = Some pr → _settled pr = true → _cancel call p s = (s, Ok tt).
Proof.
  intros H Hs. unfold _cancel.
  rewrite (bind_Ok _ _ _ _ _ (get_promise_Some _ _ _ H)). by rewrite Hs.
Qed.

Lemma _cancel_pending call p pr s :
  heap s !! p = Some pr → _settled pr = false →
  _cancel call p s =
    (_emit call p "promise:cancelled" [VEvent VNone] ;;
     _async (VFun (Emit p "promise:rejected" (CancelException "Cancelled"))) [])
      (store p (rejected_with (CancelException "Cancelled") pr) s).
Proof.
  intros H Hs. unfold _cancel.
  rewrite (bind_Ok _ _ _ _ _ (get_promise_Some _ _ _ H)). rewrite Hs.
  rewrite (bind_Ok _ _ _ _ _ (update_promise_Some _ _ _ _ H)).
  rewrite (bind_Ok _ _ _ _ _
             (update_promise_Some _ _ _ _ (store_lookup _ _ _ _ H))).
  rewrite store_store.
  rewrite (bind_Ok _ _ _ _ _
             (update_promise_Some _ _ _ _ (store_lookup _ _ _ _ H))).
  rewrite store_store. reflexivity.
Qed.

Lemma dangling_fulfill p v s : heap s !! p = None → _fulfill p v s = (s, Halt Dangling).
Proof. intros H. unfold _fulfill, bind, get_promise. by rewrite H. Qed.

Lemma dangling_reject p v s : heap s !! p = None → _reject p v s = (s, Halt Dangling).
Proof. intros H. unfold _reject, bind, get_promise. by rewrite H. Qed.

Lemma dangling_cancel call p s :
  heap s !! p = None → _cancel call p s = (s, Halt Dangling).
Proof. intros H. unfold _cancel, bind, get_promise. by rewrite H. Qed.

(** ** What every computation preserves *)

Lemma same_outcome_refl pr : same_outcome pr pr.
Proof. by repeat split. Qed.

Lemma same_outcome_trans pr1 pr2 pr3 :
  same_outcome pr1 pr2 → same_outcome pr2 pr3 → same_outcome pr1 pr3.
Proof.
  intros (?&?&?&?&?) (?&?&?&?&?). repeat split; congruence.
Qed.

Lemma promise_evolves_refl pr : promise_evolves pr pr.
Proof. split; [intros _; apply same_outcome_refl | done]. Qed.

Lemma promise_evolves_trans pr1 pr2 pr3 :
  promise_evolves pr1 pr2 → promise_evolves pr2 pr3 → promise_evolves pr1 pr3.
Proof.
  intros [H1 H1'] [H2 H2']. split; [|by auto].
  intros Hs. pose proof (H1 Hs) as H12.
  eapply same_outcome_trans; [done|]. apply H2.
  destruct H12 as (_&_&_&_&->). done.
Qed.

Lemma evolves_refl s : evolves s s.
Proof.
  split.
  - intros p pr H. exists pr. split; [done | apply promise_evolves_refl].
  - intros p pr H1 H2. congruence.
Qed.

Lemma evolves_trans s1 s2 s3 : evolves s1 s2 → evolves s2 s3 → evolves s1 s3.
Proof.
  intros [H1 H1'] [H2 H2']. split.
  - intros p pr H. destruct (H1 _ _ H) as (pr2 & Hp2 & He2).
    destruct (H2 _ _ Hp2) as (pr3 & Hp3 & He3).
    exists pr3. split; [done|]. by eapply promise_evolves_trans.
  - intros p pr3 Hp3 Hnone. destruct (heap s2 !! p) as [pr2|] eqn:Hp2.
    + destruct (H2 _ _ Hp2) as (pr3' & Hp3' & [_ He3]).
      assert (pr3' = pr3) as -> by congruence.
      apply He3. by eapply H1'.
    + by eapply H2'.
Qed.

Lemma evolves_same_heap s s' : heap s' = heap s → evolves s s'.
Proof.
  intros H. split; rewrite H.
  - intros p pr Hp. exists pr. split; [done | apply promise_evolves_refl].
  - intros p pr H1 H2. congruence.
Qed.

Lemma evolves_store p pr pr' s :
  heap s !! p = Some pr → promise_evolves pr pr' → evolves s (store p pr' s).
Proof.
  intros H He. split.
  - intros q prq Hq. destruct (decide (p = q)) as [<-|Hne].
    + exists pr'. split; [by eapply store_lookup|].
      by assert (prq = pr) as -> by congruence.
    + exists prq. rewrite store_lookup_ne; [|done].
      split; [done | apply promise_evolves_refl].
  - intros q prq Hq Hnone. destruct (decide (p = q)) as [<-|Hne].
    + congruence.
    + rewrite store_lookup_ne in Hq; congruence.
Qed.

Lemma consistent_new_promise : consistent new_promise.
Proof. by split. Qed.

Lemma evolves_alloc s : evolves s (set_heap (heap s ++ [new_promise]) s).
Proof.
  split.
  - intros p pr H. exists pr. split; [|apply promise_evolves_refl].
    simpl. by apply lookup_app_l_Some.
  - intros p pr H Hnone. simpl in H.
    apply lookup_ge_None in Hnone.
    rewrite lookup_app_r in H; [|done].
    destruct (p - length (heap s)) as [|n]; simpl in H; [|done].
    injection H as <-. apply consistent_new_promise.
Qed.

Lemma promise_evolves_fulfilled v pr :
  _settled pr = false → promise_evolves pr (fulfilled_with v pr).
Proof.
  intros Hs. split; [congruence|]. unfold consistent. simpl. rewrite Hs.
  destruct (_fulfilled pr), (_rejected pr); simpl; intuition congruence.
Qed.

Lemma promise_evolves_rejected v pr :
  _settled pr = false → promise_evolves pr (rejected_with v pr).
Proof.
  intros Hs. split; [congruence|]. unfold consistent. simpl. rewrite Hs.
  destruct (_fulfilled pr), (_rejected pr); simpl; intuition congruence.
Qed.

Lemma promise_evolves_events d pr : promise_evolves pr (set_events d pr).
Proof. split; [intros _; by repeat split | done]. Qed.

Lemma preserving_ret {A} (a : A) : preserving (ret a).
Proof. intros s. apply evolves_refl. Qed.

Lemma preserving_raise {A} e : preserving (@raise A e).
Proof. intros s. apply evolves_refl. Qed.

Lemma preserving_halt {A} h : preserving (@halt_with A h).
Proof. intros s. apply evolves_refl. Qed.

Lemma preserving_bind {A B} (m : M A) (k : A → M B) :
  preserving m → (∀ a, preserving (k a)) → preserving (bind m k).
Proof.
  intros Hm Hk s. unfold bind. specialize (Hm s).
  destruct (m s) as [s' [a|e|h]]; simpl in *; [|done..].
  eapply evolves_trans; [done | apply Hk].
Qed.

Lemma preserving_try {A} (m : M A) (handler : value → M A) :
  preserving m → (∀ e, preserving (handler e)) →
  preserving (try_except m handler).
Proof.
  intros Hm Hk s. unfold try_except. specialize (Hm s).
  destruct (m s) as [s' [a|e|h]]; simpl in *; [done| |done].
  eapply evolves_trans; [done | apply Hk].
Qed.

Lemma preserving_get_promise p : preserving (get_promise p).
Proof.
  intros s. unfold get_promise. destruct (heap s !! p); apply evolves_refl.
Qed.

Lemma preserving_update_events p d : preserving (update_promise p (set_events d)).
Proof.
  intros s. unfold update_promise. destruct (heap s !! p) as [pr|] eqn:H.
  - eapply evolves_store; [done | apply promise_evolves_events].
  - apply evolves_refl.
Qed.

Lemma preserving_alloc_promise : preserving alloc_promise.
Proof. intros s. apply evolves_alloc. Qed.

Lemma preserving_new_cell : preserving new_cell.
Proof. intros s. by apply evolves_same_heap. Qed.

Lemma preserving_get_cell c : preserving (get_cell c).
Proof. intros s. unfold get_cell. destruct (cells s !! c); apply evolves_refl. Qed.

Lemma preserving_set_cell c b : preserving (set_cell c b).
Proof. intros s. by apply evolves_same_heap. Qed.

Lemma preserving_log_call u args : preserving (log_call u args).
Proof. intros s. by apply evolves_same_heap. Qed.

Lemma preserving__async fn lyst : preserving (_async fn lyst).
Proof. intros s. by apply evolves_same_heap. Qed.

Lemma preserving_detail_of event : preserving (detail_of event).
Proof. destruct event; first [apply preserving_ret | apply preserving_raise]. Qed.

Lemma evolves_scheduled fn lyst s s' :
  evolves s s' → evolves s (scheduled fn lyst s').
Proof.
  intros H. eapply evolves_trans; [done|]. by apply evolves_same_heap.
Qed.

Lemma preserving__fulfill p v : preserving (_fulfill p v).
Proof.
  intros s. destruct (heap s !! p) as [pr|] eqn:H.
  - destruct (_settled pr) eqn:Hs.
    + rewrite (_fulfill_settled _ _ _ _ H Hs). apply evolves_refl.
    + rewrite (_fulfill_pending _ _ _ _ H Hs). apply evolves_scheduled.
      eapply evolves_store; [done | by apply promise_evolves_fulfilled].
  - rewrite dangling_fulfill; [apply evolves_refl | done].
Qed.

Lemma preserving__reject p v : preserving (_reject p v).
Proof.
  intros s. destruct (heap s !! p) as [pr|] eqn:H.
  - destruct (_settled pr) eqn:Hs.
    + rewrite (_reject_settled _ _ _ _ H Hs). apply evolves_refl.
    + rewrite (_reject_pending _ _ _ _ H Hs). apply evolves_scheduled.
      eapply evolves_store; [done | by apply promise_evolves_rejected].
  - rewrite dangling_reject; [apply evolves_refl | done].
Qed.

Lemma preserving__notify p v : preserving (_notify p v).
Proof.
  intros s. destruct (heap s !! p) as [pr|] eqn:H.
  - destruct (_settled pr) eqn:Hs.
    + rewrite (_notify_settled _ _ _ _ H Hs). apply evolves_refl.
    + rewrite (_notify_pending _ _ _ _ H Hs). by apply evolves_same_heap.
  - unfold _notify, bind, get_promise. rewrite H. apply evolves_refl.
Qed.

Create HintDb pres.
#[local] Hint Resolve preserving_ret preserving_raise preserving_halt
  preserving_get_promise preserving_update_events preserving_alloc_promise
  preserving_new_cell preserving_get_cell preserving_set_cell
  preserving_log_call preserving__async preserving_detail_of
  preserving__fulfill preserving__reject preserving__notify : pres.

Ltac pres_step :=
  match goal with
  | |- preserving (bind _ _) => apply preserving_bind; [|intros ?]
  | |- preserving (try_except _ _) => apply preserving_try; [|intros ?]
  | |- preserving (if ?b then _ else _) => destruct b
  | |- preserving (match ?x with _ => _ end) => destruct x
  | |- preserving _ => solve [eauto with pres]
  end.

Ltac pres := repeat pres_step.

Section Preserving.
Variable W : world.
Variable call : value → list value → M value.
Hypothesis preserving_call : ∀ f args, preserving (call f args).
Hint Resolve preserving_call : pres.

Lemma preserving__on obj tipe listener : preserving (_on obj tipe listener).
Proof. unfold _on. pres. Qed.

Lemma preserving_for_each funs lyst : preserving (for_each call funs lyst).
Proof. induction funs as [|fn funs IH]; simpl; pres. Qed.
Hint Resolve preserving__on preserving_for_each : pres.

Lemma preserving__emit obj tipe lyst : preserving (_emit call obj tipe lyst).
Proof. unfold _emit. pres. Qed.
Hint Resolve preserving__emit : pres.

Lemma preserving__cancel p : preserving (_cancel call p).
Proof.
  intros s. destruct (heap s !! p) as [pr|] eqn:H.
  - destruct (_settled pr) eqn:Hs.
    + rewrite (_cancel_settled _ _ _ _ H Hs). apply evolves_refl.
    + rewrite (_cancel_pending _ _ _ _ H Hs).
      eapply evolves_trans;
        [exact (evolves_store _ _ _ _ H
                  (promise_evolves_rejected (CancelException "Cancelled") _ Hs))|].
      apply (preserving_bind (_emit call p "promise:cancelled" [VEvent VNone]));
        [|intros ?]; pres.
  - rewrite dangling_cancel; [apply evolves_refl | done].
Qed.
Hint Resolve preserving__cancel : pres.

Lemma preserving__handle_thenable p v : preserving (_handle_thenable W call p v).
Proof. unfold _handle_thenable. pres. Qed.
Hint Resolve preserving__handle_thenable : pres.

Lemma preserving__resolve p v : preserving (_resolve W call p v).
Proof. unfold _resolve. pres. Qed.
Hint Resolve preserving__resolve : pres.

Lemma preserving__invoke_callback resolver p callback event :
  (∀ q v, preserving (resolver q v)) →
  preserving (_invoke_callback W call resolver p callback event).
Proof. intros Hr. unfold _invoke_callback. pres. Qed.

Lemma preserving__invoke_notify_callback p callback event :
  preserving (_invoke_notify_callback call p callback event).
Proof. unfold _invoke_notify_callback. pres. Qed.

Lemma preserving_Promise_init executor canceller :
  preserving (Promise_init call executor canceller).
Proof. unfold Promise_init. pres. Qed.
Hint Resolve preserving__invoke_callback preserving__invoke_notify_callback
  preserving_Promise_init : pres.

Lemma preserving_Promise_then self done fail progress :
  preserving (Promise_then call self done fail progress).
Proof. unfold Promise_then. pres. Qed.
Hint Resolve preserving_Promise_then : pres.

Lemma preserving_Promise_cancel self : preserving (Promise_cancel call self).
Proof. unfold Promise_cancel. pres. Qed.
Hint Resolve preserving_Promise_cancel : pres.

Lemma preserving_run_ucode c : preserving (run_ucode call c).
Proof. induction c as [v|e|f args k IH]; simpl; pres. Qed.
Hint Resolve preserving_run_ucode : pres.

Lemma preserving_invoke_closure c args : preserving (invoke_closure W call c args).
Proof.
  destruct c; simpl;
    unfold on_cancel, on_done, on_fail, on_progress, tryer,
           settled_on_done, settled_on_fail; pres.
Qed.

Lemma preserving_invoke_method p m args :
  preserving (invoke_method call p m args).
Proof.
  destruct m; simpl; unfold Promise_catch, Promise_progress; pres.
Qed.
Hint Resolve preserving_invoke_closure preserving_invoke_method : pres.

Lemma preserving_invoke f args : preserving (invoke W call f args).
Proof. unfold invoke. pres. Qed.
End Preserving.

Lemma preserving_call W fuel f args : preserving (call W fuel f args).
Proof.
  revert f args. induction fuel as [|fuel IH]; intros f args; simpl.
  - apply preserving_halt.
  - by apply preserving_invoke.
Qed.

Lemma preserving_tick W fuel : preserving (tick W fuel).
Proof.
  intros s. unfold tick. destruct (queue s) as [|[fn lyst] q].
  - apply evolves_refl.
  - eapply evolves_trans; [|apply preserving_call]. by apply evolves_same_heap.
Qed.

Lemma evolves_invariant s s' : evolves s s' → invariant s → invariant s'.
Proof.
  intros [H1 H2] Hinv p pr' Hp. destruct (heap s !! p) as [pr|] eqn:Hq.
  - destruct (H1 _ _ Hq) as (pr'' & Hp' & [_ Hc]).
    assert (pr'' = pr') as -> by congruence. apply Hc. by eapply Hinv.
  - by eapply H2.
Qed.

Lemma evolves_settled s s' p pr :
  evolves s s' → heap s !! p = Some pr → _settled pr = true →
  ∃ pr', heap s' !! p = Some pr' ∧ same_outcome pr pr'.
Proof.
  intros [H1 _] Hp Hs. destruct (H1 _ _ Hp) as (pr' & Hp' & [Hsame _]).
  exists pr'. auto.
Qed.

Lemma evolves_step W s a : evolves s (step W s a).
Proof.
  destruct a as [fuel [f args|]]; simpl;
    [apply preserving_call | apply preserving_tick].
Qed.

Lemma evolves_steps W acts s : evolves s (foldl (step W) s acts).
Proof.
  revert s. induction acts as [|a acts IH]; intros s; simpl.
  - apply evolves_refl.
  - eapply evolves_trans; [apply evolves_step | apply IH].
Qed.

Lemma invariant_empty_state : invariant empty_state.
Proof. intros p pr H. done. Qed.

(** Every state the host program and the scheduler can reach from the empty
    store has consistent flags. *)
Lemma invariant_reach W acts : invariant (reach W acts).
Proof.
  eapply evolves_invariant; [apply evolves_steps | apply invariant_empty_state].
Qed.

(** ** Settlement happens once *)

Lemma settle_settled call p pr op s :
  heap s !! p = Some pr → _settled pr = true → settle call p op s = (s, Ok tt).
Proof.
  intros H Hs. destruct op as [v|v|]; simpl.
  - by eapply _fulfill_settled.
  - by eapply _reject_settled.
  - by eapply _cancel_settled.
Qed.

Lemma settle_all_settled call p pr ops s :
  heap s !! p = Some pr → _settled pr = true →
  settle_all call p ops s = (s, Ok tt).
Proof.
  intros H Hs. induction ops as [|op ops IH]; simpl; [done|].
  by rewrite (bind_Ok _ _ _ _ _ (settle_settled call _ _ op _ H Hs)).
Qed.

Lemma settle_pending W fuel p pr op s :
  heap s !! p = Some pr → _settled pr = false →
  ∃ pr1, heap (settle (call W fuel) p op s).1 !! p = Some pr1 ∧
         same_outcome (settled_by op pr) pr1.
Proof.
  intros H Hs. destruct op as [v|v|]; simpl.
  - rewrite (_fulfill_pending _ _ _ _ H Hs). simpl.
    exists (fulfilled_with v pr). split; [|apply same_outcome_refl].
    apply list_lookup_insert_eq. by eapply lookup_lt_Some.
  - rewrite (_reject_pending _ _ _ _ H Hs). simpl.
    exists (rejected_with v pr). split; [|apply same_outcome_refl].
    apply list_lookup_insert_eq. by eapply lookup_lt_Some.
  - rewrite (_cancel_pending _ _ _ _ H Hs).
    eapply evolves_settled; [|by eapply store_lookup|done].
    apply (preserving_bind
             (_emit (call W fuel) p "promise:cancelled" [VEvent VNone]));
      [|intros ?]; pres.
    apply preserving__emit, preserving_call.
Qed.

(** C1. Settle-once.  On a pending promise the first of a sequence of
    fulfill, reject and cancel operations settles it: the promise has the
    state and the outcome of that operation.  Every later operation of the
    sequence returns without an exception and leaves the whole store as it
    is, and whatever the host program and the scheduler do afterwards, the
    state and the outcome of the promise stay the same. *)
Theorem settle_once W fuel s p pr op ops :
  heap s !! p = Some pr → _settled pr = false →
  ∃ pr1, let s1 := (settle (call W fuel) p op s).1 in
    heap s1 !! p = Some pr1 ∧
    _settled pr1 = true ∧
    same_outcome (settled_by op pr) pr1 ∧
    settle_all (call W fuel) p ops s1 = (s1, Ok tt) ∧
    ∀ acts, ∃ pr2, heap (foldl (step W) s1 acts) !! p = Some pr2 ∧
                   same_outcome pr1 pr2.
Proof.
  intros H Hs.
  destruct (settle_pending W fuel p pr op s H Hs) as (pr1 & Hp1 & Hsame).
  assert (_settled pr1 = true) as Hs1.
  { destruct Hsame as (_&_&_&_&->). by destruct op. }
  exists pr1. simpl. repeat split; try done; try apply Hsame.
  - by eapply settle_all_settled.
  - intros acts. eapply evolves_settled; [apply evolves_steps|done..].
Qed.

(** ** The flags of a promise *)

Lemma preserving_invariant {A} (m : M A) s :
  preserving m → invariant s → invariant (m s).1.
Proof. intros Hm. apply evolves_invariant, Hm. Qed.

Lemma consistent_settled pr :
  consistent pr → _settled pr = true →
  (_fulfilled pr = true ∧ _rejected pr = false) ∨
  (_fulfilled pr = false ∧ _rejected pr = true).
Proof.
  intros [H1 H2] Hs. rewrite Hs in H1.
  destruct (_fulfilled pr), (_rejected pr); simpl in *; auto; congruence.
Qed.

(** C10. The flags invariant: in every promise of the store [_settled] is
    the disjunction of [_fulfilled] and [_rejected], which are not both
    true.  Construction, fulfill, reject, cancel, notify, resolution, [then]
    and every sequence of calls and scheduler turns preserve it, so that the
    dispatch of [then] on a settled receiver takes exactly one of its two
    branches. *)
Theorem flags_invariant W fuel s :
  invariant s →
  (∀ executor canceller,
     invariant (Promise_init (call W fuel) executor canceller s).1) ∧
  (∀ p v, invariant (_fulfill p v s).1) ∧
  (∀ p v, invariant (_reject p v s).1) ∧
  (∀ p, invariant (_cancel (call W fuel) p s).1) ∧
  (∀ p v, invariant (_notify p v s).1) ∧
  (∀ p v, invariant (_resolve W (call W fuel) p v s).1) ∧
  (∀ p done fail progress,
     invariant (Promise_then (call W fuel) p done fail progress s).1) ∧
  (∀ acts, invariant (foldl (step W) s acts)) ∧
  (∀ p pr, heap s !! p = Some pr →
     _settled pr = _fulfilled pr || _rejected pr ∧
     ¬ (_fulfilled pr = true ∧ _rejected pr = true) ∧
     (_settled pr = true →
      (_fulfilled pr = true ∧ _rejected pr = false) ∨
      (_fulfilled pr = false ∧ _rejected pr = true))).
Proof.
  intros Hinv.
  pose proof (preserving_call W fuel) as Hcall.
  split_and!.
  - intros executor canceller. apply preserving_invariant; [|done].
    by apply preserving_Promise_init.
  - intros p v. apply preserving_invariant; [|done]. apply preserving__fulfill.
  - intros p v. apply preserving_invariant; [|done]. apply preserving__reject.
  - intros p. apply preserving_invariant; [|done]. by apply preserving__cancel.
  - intros p v. apply preserving_invariant; [|done]. apply preserving__notify.
  - intros p v. apply preserving_invariant; [|done]. by apply preserving__resolve.
  - intros p done fail progress. apply preserving_invariant; [|done].
    by apply preserving_Promise_then.
  - intros acts. eapply evolves_invariant; [apply evolves_steps | done].
  - intros p pr H. destruct (Hinv _ _ H) as [H1 H2]. split_and!.
    + done.
    + intros [H3 H4]. rewrite H3, H4 in H2. done.
    + intros Hs. eapply consistent_settled; [by eapply Hinv | done].
Qed.

(** ** Computations that raise nothing *)

Lemma no_raise_ret {A} (a : A) : no_raise (ret a).
Proof. intros s e. done. Qed.

Lemma no_raise_halt {A} h : no_raise (@halt_with A h).
Proof. intros s e. done. Qed.

Lemma no_raise_bind {A B} (m : M A) (k : A → M B) :
  no_raise m → (∀ a, no_raise (k a)) → no_raise (bind m k).
Proof.
  intros Hm Hk s e. unfold bind. specialize (Hm s).
  destruct (m s) as [s' [a|e'|h]]; simpl in *; [apply Hk | by destruct (Hm e') | done].
Qed.

Lemma no_raise_try {A} (m : M A) (handler : value → M A) :
  (∀ e, no_raise (handler e)) → no_raise (try_except m handler).
Proof.
  intros Hk s e. unfold try_except.
  destruct (m s) as [s' [a|e'|h]]; simpl; [done | apply Hk | done].
Qed.

Lemma no_raise_get_promise p : no_raise (get_promise p).
Proof. intros s e. unfold get_promise. by destruct (heap s !! p). Qed.

Lemma no_raise_update_promise p f : no_raise (update_promise p f).
Proof. intros s e. unfold update_promise. by destruct (heap s !! p). Qed.

Lemma no_raise_new_cell : no_raise new_cell.
Proof. intros s e. done. Qed.

Lemma no_raise_get_cell c : no_raise (get_cell c).
Proof. intros s e. unfold get_cell. by destruct (cells s !! c). Qed.

Lemma no_raise_set_cell c b : no_raise (set_cell c b).
Proof. intros s e. done. Qed.

Lemma no_raise__async fn lyst : no_raise (_async fn lyst).
Proof. intros s e. done. Qed.

Lemma no_raise_detail_of d : no_raise (detail_of (VEvent d)).
Proof. intros s e. done. Qed.

Create HintDb noraise.
#[local] Hint Resolve no_raise_ret no_raise_halt no_raise_get_promise
  no_raise_update_promise no_raise_new_cell no_raise_get_cell
  no_raise_set_cell no_raise__async no_raise_detail_of : noraise.

Ltac no_raise_step :=
  match goal with
  | |- no_raise (try_except _ _) => apply no_raise_try; intros ?
  | |- no_raise (bind _ _) => apply no_raise_bind; [|intros ?]
  | |- no_raise (if ?b then _ else _) => destruct b
  | |- no_raise (match ?x with _ => _ end) => destruct x
  | |- no_raise _ => solve [eauto with noraise]
  end.

Ltac no_raise := repeat no_raise_step.

Lemma no_raise__fulfill p v : no_raise (_fulfill p v).
Proof. unfold _fulfill. no_raise. Qed.

Lemma no_raise__reject p v : no_raise (_reject p v).
Proof. unfold _reject. no_raise. Qed.

Lemma no_raise__notify p v : no_raise (_notify p v).
Proof. unfold _notify. no_raise. Qed.

Lemma no_raise__on obj tipe listener : no_raise (_on obj tipe listener).
Proof. unfold _on. no_raise. Qed.

#[local] Hint Resolve no_raise__fulfill no_raise__reject no_raise__notify
  no_raise__on : noraise.

Lemma no_raise__handle_thenable W call p v :
  no_raise (_handle_thenable W call p v).
Proof. unfold _handle_thenable. no_raise. Qed.
#[local] Hint Resolve no_raise__handle_thenable : noraise.

Lemma no_raise__resolve W call p v : no_raise (_resolve W call p v).
Proof. unfold _resolve. no_raise. Qed.
#[local] Hint Resolve no_raise__resolve : noraise.

Lemma no_raise__invoke_callback W call resolver p callback d :
  (∀ q v, no_raise (resolver q v)) →
  no_raise (_invoke_callback W call resolver p callback (VEvent d)).
Proof. intros Hr. unfold _invoke_callback. no_raise. Qed.

Lemma no_raise__invoke_notify_callback call p callback d :
  no_raise (_invoke_notify_callback call p callback (VEvent d)).
Proof. unfold _invoke_notify_callback. no_raise. Qed.

(** A listener registered by [then] raises nothing when it is called with
    an event. *)
Lemma no_raise_reaction W fuel f d :
  is_reaction f = true → no_raise (call W fuel f [VEvent d]).
Proof.
  intros Hf. destruct fuel as [|fuel]; simpl; [apply no_raise_halt|].
  destruct f as [| | | | | | | |c| |]; try done.
  destruct c; try done; simpl; apply no_raise_bind;
    auto using no_raise_ret, no_raise__invoke_notify_callback,
               no_raise__invoke_callback, no_raise__resolve, no_raise__reject.
Qed.

(** ** Emission *)

Lemma emit_listeners call obj tipe lyst pr s :
  heap s !! obj = Some pr →
  _emit call obj tipe lyst s =
    (for_each call (listeners pr tipe) lyst ;; ret (VPromise obj)) s.
Proof.
  intros H. unfold _emit, listeners.
  rewrite (bind_Ok _ _ _ _ _ (get_promise_Some _ _ _ H)).
  destruct (_events pr) as [events|]; [|done].
  destruct (events !! tipe) as [[f|funs]|]; [|done..].
  destruct (isfunction f); [|done]. simpl. unfold bind.
  by destruct (call f lyst s) as [s' [a|e|h]].
Qed.

Lemma try_except_no_raise {A} (m : M A) handler s :
  (∀ e, (m s).2 ≠ Raise e) → try_except m handler s = m s.
Proof.
  intros H. unfold try_except. destruct (m s) as [s' [a|e|h]]; try done.
  by destruct (H e).
Qed.

Lemma for_each_reactions W fuel funs d s :
  Forall (λ f, is_reaction f = true) funs →
  for_each (call W fuel) funs [VEvent d] s =
    for_each_isolated (call W fuel) funs [VEvent d] s ∧
  ∀ e, (for_each (call W fuel) funs [VEvent d] s).2 ≠ Raise e.
Proof.
  intros Hall. revert s. induction Hall as [|f funs Hf Hall IH]; intros s.
  - done.
  - simpl. pose proof (no_raise_reaction W fuel f d Hf s) as Hnr.
    unfold bind, try_except.
    destruct (call W fuel f [VEvent d] s) as [s' [a|e|h]]; simpl in *;
      [apply IH | by destruct (Hnr e) | done].
Qed.




(** ** Progress handlers *)



(** ** Cancellation *)

Lemma listeners_rejected_with v pr tipe :
  listeners (rejected_with v pr) tipe = listeners pr tipe.
Proof. done. Qed.

Lemma call_cancel_listener W fuel f lyst s :
  is_cancel_listener f = true → lyst ≠ [] →
  call W (S fuel) f lyst s = (s, Raise arity_error).
Proof.
  intros Hf Hl. destruct f as [| | | | | | | |c| |]; try done.
  destruct c; try done; simpl; by destruct lyst.
Qed.

(** C4, the run of the code that contradicts it.  [Promise.__init__] and
    [_handle_thenable] register for the cancelled event the functions
    [tryer] and [on_cancel], which take no parameter, and [_cancel] emits
    that event with one positional argument, the dict of the event.  On a
    pending promise with such a listener the call of the first listener
    raises [TypeError], which leaves [_emit], [_cancel] and [cancel]: the
    promise is rejected with the cancellation reason, but the canceller or
    the forwarder has not run (the log is unchanged), and the emission of
    the rejected event has not been scheduled (the queue is unchanged). *)
Theorem cancel_with_listener_raises W fuel p pr f rest s :
  heap s !! p = Some pr → _settled pr = false →
  listeners pr "promise:cancelled" = f :: rest →
  is_cancel_listener f = true →
  Promise_cancel (call W (S fuel)) p s =
    (store p (rejected_with (CancelException "Cancelled") pr) s,
     Raise arity_error).
Proof.
  intros H Hs Hl Hf. unfold Promise_cancel.
  rewrite (bind_Ok _ _ _ _ _ (get_promise_Some _ _ _ H)). rewrite Hs. simpl.
  apply bind_Raise. rewrite (_cancel_pending _ _ _ _ H Hs).
  apply bind_Raise.
  rewrite (emit_listeners _ _ _ _ _ _ (store_lookup _ _ _ _ H)).
  rewrite listeners_rejected_with, Hl.
  apply bind_Raise. cbn [for_each]. apply bind_Raise.
  by apply call_cancel_listener.
Qed.

(** [cancel()] on a pending promise constructed with a canceller: the
    [TypeError] reaches the caller, the canceller has not been called and
    nothing is scheduled. *)
Lemma cancel_with_listener_raises_witness :
  let s := run_canceller in
  let pr := promise_at s 0 in
  heap s !! 0 = Some pr ∧ _settled pr = false ∧
  listeners pr "promise:cancelled" = [VFun (Tryer (VFun (User 1)))] ∧
  Promise_cancel (call host 5) 0 s =
    (store 0 (rejected_with (CancelException "Cancelled") pr) s,
     Raise arity_error) ∧
  log (Promise_cancel (call host 5) 0 s).1 = log s ∧
  queue (Promise_cancel (call host 5) 0 s).1 = [].
Proof.
  assert (heap run_canceller !! 0 = Some (promise_at run_canceller 0)) as H
    by (vm_compute; reflexivity).
  assert (listeners (promise_at run_canceller 0) "promise:cancelled"
          = [VFun (Tryer (VFun (User 1)))]) as Hl by (vm_compute; reflexivity).
  pose proof (cancel_with_listener_raises host 4 0 _ _ _ run_canceller
                H eq_refl Hl eq_refl) as Hc.
  split_and!; [exact H | reflexivity | exact Hl | exact Hc
              | by rewrite Hc | by rewrite Hc].
Defined.

(** Without a listener for the cancelled event, [cancel] rejects the promise
    with the cancellation reason, schedules the emission of the rejected
    event and returns the promise. *)
Lemma cancel_without_listener call p pr s :
  heap s !! p = Some pr → _settled pr = false →
  listeners pr "promise:cancelled" = [] →
  Promise_cancel call p s =
    (scheduled (VFun (Emit p "promise:rejected" (CancelException "Cancelled")))
       [] (store p (rejected_with (CancelException "Cancelled") pr) s),
     Ok (VPromise p)).
Proof.
  intros H Hs Hl. unfold Promise_cancel.
  rewrite (bind_Ok _ _ _ _ _ (get_promise_Some _ _ _ H)). rewrite Hs. simpl.
  erewrite bind_Ok; [done|]. rewrite (_cancel_pending _ _ _ _ H Hs).
  erewrite bind_Ok; [done|].
  rewrite (emit_listeners _ _ _ _ _ _ (store_lookup _ _ _ _ H)).
  by rewrite listeners_rejected_with, Hl.
Qed.

(** ** Resolution of a promise with itself *)

Lemma is_same_promise p : is_ (VPromise p) (VPromise p) = true.
Proof. simpl. by apply bool_decide_eq_true. Qed.

Lemma new_cell_eq s : new_cell s = (with_cell s, Ok (length (cells s))).
Proof. done. Qed.

(** C6.  Resolving a pending promise with itself fulfils it with itself:
    no thenable is looked for, no function is called and no guard is
    allocated, whatever [call] is.  When the handler of a reaction returns
    the promise the reaction settles, that promise is rejected with the
    [TypeError] of [_handle_thenable]. *)
Theorem self_resolution W call p pr s :
  heap s !! p = Some pr → _settled pr = false →
  _resolve W call p (VPromise p) s =
    (scheduled (VFun (Emit p "promise:resolved" (VPromise p))) []
       (store p (fulfilled_with (VPromise p) pr) s), Ok tt) ∧
  ∀ resolver callback d s1 pr1,
    isfunction callback = true →
    call callback [d] s = (s1, Ok (VPromise p)) →
    heap s1 !! p = Some pr1 → _settled pr1 = false →
    let error :=
      TypeError "A promise callback cannot return that same promise." in
    _invoke_callback W call resolver p callback (VEvent d) s =
      (scheduled (VFun (Emit p "promise:rejected" error)) []
         (store p (rejected_with error pr1) (with_cell s1)), Ok tt).
Proof.
  intros H Hs. split.
  - unfold _resolve. rewrite is_same_promise. by apply _fulfill_pending.
  - intros resolver callback d s1 pr1 Hf Hcall H1 Hs1 error.
    unfold _invoke_callback.
    rewrite (bind_Ok _ _ _ _ _ (get_promise_Some _ _ _ H)). rewrite Hs, Hf.
    erewrite bind_Ok; cycle 1.
    { unfold try_except. erewrite bind_Ok; [|done].
      erewrite bind_Ok; [|exact Hcall]. done. }
    cbn [value_]. erewrite bind_Ok; cycle 1.
    { unfold _handle_thenable. rewrite (bind_Ok _ _ _ _ _ (new_cell_eq s1)).
      rewrite is_same_promise. unfold try_except, raise.
      erewrite bind_Ok; [done|].
      apply (_reject_pending p error pr1 (with_cell s1)); done. }
    done.
Qed.

(** Promise 1, derived from promise 0 with a handler that returns promise
    1: resolved with itself it is fulfilled with itself, and the reaction
    rejects it with the [TypeError]. *)
Lemma self_resolution_witness :
  let s := run_returns_derived in
  let error :=
    TypeError "A promise callback cannot return that same promise." in
  let s1 := State (heap s) (cells s) (queue s) (log s ++ [(10, [VInt 3])]) in
  heap s !! 1 = Some new_promise ∧
  call host 5 (VFun (User 10)) [VInt 3] s = (s1, Ok (VPromise 1)) ∧
  _resolve host (call host 5) 1 (VPromise 1) s =
    (scheduled (VFun (Emit 1 "promise:resolved" (VPromise 1))) []
       (store 1 (fulfilled_with (VPromise 1) new_promise) s), Ok tt) ∧
  _invoke_callback host (call host 5) (_resolve host (call host 5)) 1
                   (VFun (User 10)) (VEvent (VInt 3)) s =
    (scheduled (VFun (Emit 1 "promise:rejected" error)) []
       (store 1 (rejected_with error new_promise) (with_cell s1)), Ok tt).
Proof.
  assert (heap run_returns_derived !! 1 = Some new_promise) as H
    by (vm_compute; reflexivity).
  destruct (self_resolution host (call host 5) 1 new_promise
              run_returns_derived H eq_refl) as [Ha Hb].
  split_and!; [exact H | reflexivity | exact Ha |].
  exact (Hb (_resolve host (call host 5)) (VFun (User 10)) (VInt 3) _
            new_promise eq_refl eq_refl H eq_refl).
Defined.

(** ** Progress notifications *)




(** ** Registration of listeners *)

Lemma store_id p pr s : heap s !! p = Some pr → store p pr s = s.
Proof.
  intros H. destruct s as [h c q l]. unfold store, set_heap. simpl in *.
  f_equal. by apply list_insert_id.
Qed.

Lemma _on_Some obj tipe listener pr s :
  heap s !! obj = Some pr →
  _on obj tipe listener s =
    (store obj (registered tipe listener pr) s, Ok (VPromise obj)).
Proof.
  intros H. unfold _on, registered.
  rewrite (bind_Ok _ _ _ _ _ (get_promise_Some _ _ _ H)). cbv zeta.
  erewrite bind_Ok; [done|].
  destruct (default ∅ (_events pr) !! tipe) as [[f|funs]|].
  - destruct (isfunction f).
    + by apply update_promise_Some.
    + by rewrite store_id.
  - by apply update_promise_Some.
  - by apply update_promise_Some.
Qed.

Lemma same_outcome_registered tipe listener pr :
  same_outcome pr (registered tipe listener pr).
Proof.
  unfold registered. cbv zeta.
  destruct (default ∅ (_events pr) !! tipe) as [[f|funs]|];
    [destruct (isfunction f)|..]; by repeat split.
Qed.

Lemma Promise_init_empty W fuel s :
  Promise_init (call W (S fuel)) (VFun EmptyFunction) VNone s
  = (allocated s, Ok (length (heap s))).
Proof. done. Qed.

Lemma allocated_lookup s p pr :
  heap s !! p = Some pr → heap (allocated s) !! p = Some pr.
Proof. intros H. simpl. by apply lookup_app_l_Some. Qed.

Lemma allocated_lookup_new s :
  heap (allocated s) !! length (heap s) = Some new_promise.
Proof. simpl. by rewrite lookup_app_r, Nat.sub_diag. Qed.

(** ** [then] on a settled promise *)

Lemma then_settled W fuel p pr done fail progress s :
  heap s !! p = Some pr → _settled pr = true →
  let t := length (heap s) in
  let s1 := if _fulfilled pr
            then scheduled (VFun (SettledDone t done p)) [] (allocated s)
            else allocated s in
  let s2 := if _rejected pr
            then scheduled (VFun (SettledFail t fail p)) [] s1
            else s1 in
  Promise_then (call W (S fuel)) p done fail progress s =
    (store p (registered "promise:notified" (VFun (ThenProgress t progress)) pr)
           s2, Ok (VPromise t)).
Proof.
  intros H Hs t s1 s2. unfold Promise_then.
  rewrite (bind_Ok _ _ _ _ _ (Promise_init_empty W fuel s)).
  rewrite (bind_Ok _ _ _ _ _
             (get_promise_Some _ _ _ (allocated_lookup _ _ _ H))).
  rewrite Hs.
  assert (heap s2 !! p = Some pr) as H2.
  { subst s2 s1. destruct (_fulfilled pr), (_rejected pr);
      by apply allocated_lookup. }
  erewrite bind_Ok; cycle 1.
  { instantiate (1 := tt). instantiate (1 := s2). subst s2 s1.
    by destruct (_fulfilled pr), (_rejected pr). }
  erewrite bind_Ok; [done|]. by apply _on_Some.
Qed.



(** ** Values that are not thenables *)

Lemma _handle_thenable_plain W call p v s :
  is_ (VPromise p) v = false → isfunction (getattr_then W v) = false →
  _handle_thenable W call p v s = (with_cell s, Ok false).
Proof.
  intros Hne Hf. unfold _handle_thenable.
  rewrite (bind_Ok _ _ _ _ _ (new_cell_eq s)). by rewrite Hne, Hf.
Qed.

Lemma _resolve_plain W call p pr v s :
  heap s !! p = Some pr → _settled pr = false →
  is_ (VPromise p) v = false → isfunction (getattr_then W v) = false →
  _resolve W call p v s =
    (scheduled (VFun (Emit p "promise:resolved" v)) []
       (store p (fulfilled_with v pr) (with_cell s)), Ok tt).
Proof.
  intros H Hs Hne Hf. unfold _resolve. rewrite Hne.
  rewrite (bind_Ok _ _ _ _ _ (_handle_thenable_plain W call p v s Hne Hf)).
  simpl. by apply (_fulfill_pending p v pr (with_cell s)).
Qed.

(** ** Rejection passes through [catch] *)

(** C5, as amended.  On a promise rejected with a reason that has no [then]
    function, [catch()] without a handler makes a pending derived promise
    and schedules one call, the rejection reaction.  Run in any later state
    in which the derived promise is still pending, the reaction rejects it
    with the very reason of the receiver and schedules the emission of its
    rejected event; run once more, it does nothing. *)
Theorem catch_passes_rejection_through W fuel p pr r s :
  heap s !! p = Some pr →
  _settled pr = true → _rejected pr = true → _fulfilled pr = false →
  _rejected_reason pr = r →
  isfunction (getattr_then W r) = false →
  is_ (VPromise (length (heap s))) r = false →
  let t := length (heap s) in
  ∃ s1,
    Promise_catch (call W (S fuel)) p VNone s = (s1, Ok (VPromise t)) ∧
    heap s1 !! t = Some new_promise ∧
    queue s1 = queue s ++ [(VFun (SettledFail t VNone p), [])] ∧
    ∀ call' s2 pr2 prt,
      heap s2 !! p = Some pr2 → same_outcome pr pr2 →
      heap s2 !! t = Some prt → _settled prt = false →
      let s3 := scheduled (VFun (Emit t "promise:rejected" r)) []
                  (store t (rejected_with r prt) (with_cell s2)) in
      invoke W call' (VFun (SettledFail t VNone p)) [] s2 = (s3, Ok VNone) ∧
      invoke W call' (VFun (SettledFail t VNone p)) [] s3 = (s3, Ok VNone).
Proof.
  intros H Hs Hr Hf Hreason Hthen Hfresh t.
  assert (p ≠ t) as Hne.
  { apply lookup_lt_Some in H. subst t. lia. }
  eexists. split; [by apply then_settled|]. rewrite Hr, Hf. split_and!.
  - rewrite store_lookup_ne; [|done]. apply allocated_lookup_new.
  - done.
  - intros call' s2 pr2 prt H2 (_ & _ & Hrr & _ & _) Ht Hts s3.
    assert (invoke W call' (VFun (SettledFail t VNone p)) [] s2 = (s3, Ok VNone))
      as Hrun.
    { simpl. unfold settled_on_fail.
      rewrite (bind_Ok _ _ _ _ _ (get_promise_Some _ _ _ H2)).
      rewrite Hrr, Hreason. erewrite bind_Ok; [done|].
      unfold _invoke_callback.
      rewrite (bind_Ok _ _ _ _ _ (get_promise_Some _ _ _ Ht)). rewrite Hts.
      simpl. erewrite bind_Ok; [|done]. cbn [value_].
      rewrite (bind_Ok _ _ _ _ _
                 (_handle_thenable_plain W call' t r s2 Hfresh Hthen)).
      simpl. by apply (_reject_pending t r prt (with_cell s2)). }
    split; [done|].
    assert (heap s3 !! p = Some pr2) as H3.
    { subst s3. simpl. rewrite list_lookup_insert_ne; done. }
    assert (heap s3 !! t = Some (rejected_with r prt)) as Ht3.
    { subst s3. simpl. apply list_lookup_insert_eq. by eapply lookup_lt_Some. }
    simpl. unfold settled_on_fail.
    rewrite (bind_Ok _ _ _ _ _ (get_promise_Some _ _ _ H3)).
    erewrite bind_Ok; [done|]. unfold _invoke_callback.
    by rewrite (bind_Ok _ _ _ _ _ (get_promise_Some _ _ _ Ht3)).
Qed.

(** [catch()] on a promise rejected with [7]: the reaction rejects the
    derived promise with [7]. *)
Lemma catch_passes_rejection_through_witness :
  let s := run_rejected in
  let pr := promise_at s 0 in
  heap s !! 0 = Some pr ∧ _settled pr = true ∧ _rejected pr = true ∧
  _rejected_reason pr = VInt 7 ∧
  ∃ s1, Promise_catch (call host 5) 0 VNone s = (s1, Ok (VPromise 1)) ∧
        heap s1 !! 1 = Some new_promise ∧
        queue s1 = queue s ++ [(VFun (SettledFail 1 VNone 0), [])] ∧
        let s3 := scheduled (VFun (Emit 1 "promise:rejected" (VInt 7))) []
                    (store 1 (rejected_with (VInt 7) new_promise)
                           (with_cell s1)) in
        invoke host (call host 5) (VFun (SettledFail 1 VNone 0)) [] s1
          = (s3, Ok VNone).
Proof.
  assert (heap run_rejected !! 0 = Some (promise_at run_rejected 0)) as H
    by (vm_compute; reflexivity).
  destruct (catch_passes_rejection_through host 4 0 _ (VInt 7) run_rejected
              H eq_refl eq_refl eq_refl eq_refl eq_refl eq_refl)
    as (s1 & H1 & H2 & H3 & H4).
  split_and!; [exact H | reflexivity | reflexivity | reflexivity |].
  exists s1. split_and!; [exact H1 | exact H2 | exact H3 |].
  assert (heap s1 !! 0 = Some (promise_at s1 0)) as H0.
  { injection H1 as <-. vm_compute. reflexivity. }
  assert (same_outcome (promise_at run_rejected 0) (promise_at s1 0)) as Hsame.
  { injection H1 as <-. vm_compute. by repeat split. }
  exact (proj1 (H4 (call host 5) s1 _ new_promise H0 Hsame H2 eq_refl)).
Defined.

(** C5, counterexample.  The executor rejects the promise with object 1,
    whose [then] function fulfils with [5].  After [catch()] and two turns of
    the scheduler the derived promise is not rejected with that reason: the
    reaction took the reason over as a thenable, and the derived promise is
    fulfilled with [5]. *)
Lemma catch_adopts_thenable_reason :
  let s := run_rejected_with_thenable in
  let s' := foldl (step host) s
              [(9, Call (VMethod 0 MCatch) []); (9, Turn); (9, Turn)] in
  _rejected (promise_at s 0) = true ∧
  _rejected_reason (promise_at s 0) = VObject 1 ∧
  _settled (promise_at s' 1) = true ∧
  _rejected (promise_at s' 1) = false ∧
  _fulfilled (promise_at s' 1) = true ∧
  _fulfillment_value (promise_at s' 1) = VInt 5.
Proof. vm_compute. done. Qed.

(** ** Thenables *)

Lemma get_cell_Some c b s : cells s !! c = Some b → get_cell c s = (s, Ok b).
Proof. intros H. unfold get_cell. by rewrite H. Qed.

Lemma set_cell_eq c s : set_cell c true s = (cell_set c s, Ok tt).
Proof. done. Qed.

Lemma _handle_thenable_thenable W call p pr v s :
  heap s !! p = Some pr →
  is_ (VPromise p) v = false → isfunction (getattr_then W v) = true →
  _handle_thenable W call p v s =
    match call (getattr_then W v)
               [VFun (OnDone p v (length (cells s)));
                VFun (OnFail p (length (cells s))); VFun (OnProgress p)]
               (store p (registered "promise:cancelled" (VFun (OnCancel v)) pr)
                      (with_cell s)) with
    | (s1, Ok _) => (s1, Ok true)
    | (s1, Raise e) => (_reject p e ;; ret true) s1
    | (s1, Halt h) => (s1, Halt h)
    end.
Proof.
  intros H Hne Hf. unfold _handle_thenable.
  rewrite (bind_Ok _ _ _ _ _ (new_cell_eq s)). rewrite Hne, Hf.
  unfold try_except.
  rewrite (bind_Ok _ _ _ _ _ (_on_Some p _ _ pr (with_cell s) H)).
  unfold bind at 1.
  by destruct (call (getattr_then W v) _ _) as [s1 [a|e|h]].
Qed.

(** An instance of [Promise] is no thenable for [_handle_thenable]: its
    [then] attribute is a bound method, of which [isfunction] is false.
    Resolving a pending promise with another promise of the module fulfils it
    with that promise object. *)
Lemma resolve_with_promise_instance W call p q pr s :
  heap s !! p = Some pr → _settled pr = false → p ≠ q →
  _resolve W call p (VPromise q) s =
    (scheduled (VFun (Emit p "promise:resolved" (VPromise q))) []
       (store p (fulfilled_with (VPromise q) pr) (with_cell s)), Ok tt).
Proof.
  intros H Hs Hne. apply _resolve_plain; [done..| |done].
  simpl. by apply bool_decide_eq_false.
Qed.




(** ** Concrete instances of the settlement theorems *)

(** A pending promise cancelled, then fulfilled, rejected and cancelled
    again. *)
Lemma settle_once_witness :
  let s := run_pending in
  let later := [Fulfill (VInt 1); RejectWith (VInt 2); Cancel] in
  heap s !! 0 = Some new_promise ∧
  ∃ pr1, let s1 := (settle (call host 5) 0 Cancel s).1 in
    heap s1 !! 0 = Some pr1 ∧
    _settled pr1 = true ∧
    same_outcome (rejected_with (CancelException "Cancelled") new_promise) pr1 ∧
    settle_all (call host 5) 0 later s1 = (s1, Ok tt) ∧
    ∀ acts, ∃ pr2, heap (foldl (step host) s1 acts) !! 0 = Some pr2 ∧
                   same_outcome pr1 pr2.
Proof.
  assert (heap run_pending !! 0 = Some new_promise) as H
    by (vm_compute; reflexivity).
  split; [exact H|].
  exact (settle_once host 5 run_pending 0 new_promise Cancel
           [Fulfill (VInt 1); RejectWith (VInt 2); Cancel] H eq_refl).
Defined.

(** The store after a promise has been fulfilled by its executor. *)
Lemma flags_invariant_witness :
  let s := run_fulfilled in
  invariant s ∧
  (∀ p v, invariant (_resolve host (call host 5) p v s).1) ∧
  (∀ p, invariant (_cancel (call host 5) p s).1) ∧
  (∀ acts, invariant (foldl (step host) s acts)) ∧
  _fulfilled (promise_at s 0) = true ∧ _rejected (promise_at s 0) = false.
Proof.
  assert (invariant run_fulfilled) as Hinv by apply invariant_reach.
  destruct (flags_invariant host 5 run_fulfilled Hinv)
    as (_ & _ & _ & Hcancel & _ & Hresolve & _ & Hacts & Hflags).
  split_and!; [exact Hinv | exact Hresolve | exact Hcancel | exact Hacts
              | reflexivity | reflexivity].
Defined.

(** * Further properties of the module *)

(** ** What a call only adds to *)

Lemma grows_refl s : grows s s.
Proof. by split_and!. Qed.

Lemma grows_trans s1 s2 s3 : grows s1 s2 → grows s2 s3 → grows s1 s3.
Proof.
  intros (H1&H2&H3&H4&H5) (G1&G2&G3&G4&G5). split_and!.
  - lia.
  - by etrans.
  - by etrans.
  - lia.
  - auto.
Qed.

Lemma growing_ret {A} (a : A) : growing (ret a).
Proof. intros s. apply grows_refl. Qed.

Lemma growing_raise {A} e : growing (@raise A e).
Proof. intros s. apply grows_refl. Qed.

Lemma growing_halt {A} h : growing (@halt_with A h).
Proof. intros s. apply grows_refl. Qed.

Lemma growing_bind {A B} (m : M A) (k : A → M B) :
  growing m → (∀ a, growing (k a)) → growing (bind m k).
Proof.
  intros Hm Hk s. unfold bind. specialize (Hm s).
  destruct (m s) as [s' [a|e|h]]; simpl in *; [|done..].
  eapply grows_trans; [done | apply Hk].
Qed.

Lemma growing_try {A} (m : M A) (handler : value → M A) :
  growing m → (∀ e, growing (handler e)) → growing (try_except m handler).
Proof.
  intros Hm Hk s. unfold try_except. specialize (Hm s).
  destruct (m s) as [s' [a|e|h]]; simpl in *; [done| |done].
  eapply grows_trans; [done | apply Hk].
Qed.

Lemma growing_get_promise p : growing (get_promise p).
Proof.
  intros s. unfold get_promise. destruct (heap s !! p); apply grows_refl.
Qed.

Lemma growing_update_promise p f : growing (update_promise p f).
Proof.
  intros s. unfold update_promise. destruct (heap s !! p); [|apply grows_refl].
  split_and!; simpl; try done. by rewrite length_insert.
Qed.

Lemma growing_alloc_promise : growing alloc_promise.
Proof.
  intros s. split_and!; simpl; try done. rewrite length_app. lia.
Qed.

Lemma growing_new_cell : growing new_cell.
Proof.
  intros s. split_and!; simpl; try done.
  - rewrite length_app. lia.
  - intros c H. by apply lookup_app_l_Some.
Qed.

Lemma growing_get_cell c : growing (get_cell c).
Proof. intros s. unfold get_cell. destruct (cells s !! c); apply grows_refl. Qed.

Lemma growing_set_cell c : growing (set_cell c true).
Proof.
  intros s. split_and!; simpl; try done.
  - by rewrite length_insert.
  - intros c' H. destruct (decide (c = c')) as [<-|Hne].
    + apply list_lookup_insert_eq. by eapply lookup_lt_Some.
    + by rewrite list_lookup_insert_ne.
Qed.

Lemma growing_log_call u args : growing (log_call u args).
Proof.
  intros s. split_and!; simpl; try done. by apply prefix_app_r.
Qed.

Lemma growing__async fn lyst : growing (_async fn lyst).
Proof.
  intros s. split_and!; simpl; try done. by apply prefix_app_r.
Qed.

Lemma growing_detail_of event : growing (detail_of event).
Proof. destruct event; first [apply growing_ret | apply growing_raise]. Qed.

Create HintDb grow.
#[local] Hint Resolve growing_ret growing_raise growing_halt
  growing_get_promise growing_update_promise growing_alloc_promise
  growing_new_cell growing_get_cell growing_set_cell growing_log_call
  growing__async growing_detail_of : grow.

Ltac grow_step :=
  match goal with
  | |- growing (bind _ _) => apply growing_bind; [|intros ?]
  | |- growing (try_except _ _) => apply growing_try; [|intros ?]
  | |- growing (if ?b then _ else _) => destruct b
  | |- growing (match ?x with _ => _ end) => destruct x
  | |- growing _ => solve [eauto with grow]
  end.

Ltac grow := repeat grow_step.

Lemma growing__fulfill p v : growing (_fulfill p v).
Proof. unfold _fulfill. grow. Qed.

Lemma growing__reject p v : growing (_reject p v).
Proof. unfold _reject. grow. Qed.

Lemma growing__notify p v : growing (_notify p v).
Proof. unfold _notify. grow. Qed.

Lemma growing__on obj tipe listener : growing (_on obj tipe listener).
Proof. unfold _on. grow. Qed.

#[local] Hint Resolve growing__fulfill growing__reject growing__notify
  growing__on : grow.

Section Growing.
Variable W : world.
Variable call : value → list value → M value.
Hypothesis growing_call : ∀ f args, growing (call f args).
Hint Resolve growing_call : grow.

Lemma growing_for_each funs lyst : growing (for_each call funs lyst).
Proof. induction funs as [|fn funs IH]; simpl; grow. Qed.
Hint Resolve growing_for_each : grow.

Lemma growing__emit obj tipe lyst : growing (_emit call obj tipe lyst).
Proof. unfold _emit. grow. Qed.
Hint Resolve growing__emit : grow.

Lemma growing__cancel p : growing (_cancel call p).
Proof. unfold _cancel. grow. Qed.
Hint Resolve growing__cancel : grow.

Lemma growing__handle_thenable p v : growing (_handle_thenable W call p v).
Proof. unfold _handle_thenable. grow. Qed.
Hint Resolve growing__handle_thenable : grow.

Lemma growing__resolve p v : growing (_resolve W call p v).
Proof. unfold _resolve. grow. Qed.
Hint Resolve growing__resolve : grow.

Lemma growing__invoke_callback resolver p callback event :
  (∀ q v, growing (resolver q v)) →
  growing (_invoke_callback W call resolver p callback event).
Proof. intros Hr. unfold _invoke_callback. grow. Qed.

Lemma growing__invoke_notify_callback p callback event :
  growing (_invoke_notify_callback call p callback event).
Proof. unfold _invoke_notify_callback. grow. Qed.

Lemma growing_Promise_init executor canceller :
  growing (Promise_init call executor canceller).
Proof. unfold Promise_init. grow. Qed.
Hint Resolve growing__invoke_callback growing__invoke_notify_callback
  growing_Promise_init : grow.

Lemma growing_Promise_then self done fail progress :
  growing (Promise_then call self done fail progress).
Proof. unfold Promise_then. grow. Qed.
Hint Resolve growing_Promise_then : grow.

Lemma growing_Promise_cancel self : growing (Promise_cancel call self).
Proof. unfold Promise_cancel. grow. Qed.
Hint Resolve growing_Promise_cancel : grow.

Lemma growing_run_ucode c : growing (run_ucode call c).
Proof. induction c as [v|e|f args k IH]; simpl; grow. Qed.
Hint Resolve growing_run_ucode : grow.

Lemma growing_invoke_closure c args : growing (invoke_closure W call c args).
Proof.
  destruct c; simpl;
    unfold on_cancel, on_done, on_fail, on_progress, tryer,
           settled_on_done, settled_on_fail; grow.
Qed.

Lemma growing_invoke_method p m args : growing (invoke_method call p m args).
Proof. destruct m; simpl; unfold Promise_catch, Promise_progress; grow. Qed.
Hint Resolve growing_invoke_closure growing_invoke_method : grow.

Lemma growing_invoke f args : growing (invoke W call f args).
Proof. unfold invoke. grow. Qed.
End Growing.

(** X1.  A call of any value (the class, a bound method, a closure of the
    module, a function of the host program), whatever it goes on to call,
    only adds to the store: no promise is removed, the calls the scheduler
    keeps stay where they are in the queue and new ones come after them, the
    log is only appended to, and a guard of an adoption that is set is never
    reset. *)
Theorem call_only_adds W fuel f args s :
  let s' := (call W fuel f args s).1 in
  length (heap s) ≤ length (heap s') ∧
  (∃ new, queue s' = queue s ++ new) ∧
  (∃ new, log s' = log s ++ new) ∧
  length (cells s) ≤ length (cells s') ∧
  ∀ c, cells s !! c = Some true → cells s' !! c = Some true.
Proof.
  assert (∀ fuel f args, growing (call W fuel f args)) as H.
  { clear. intros fuel. induction fuel as [|fuel IH]; intros f args; simpl.
    - apply growing_halt.
    - by apply growing_invoke. }
  destruct (H fuel f args s) as (H1&H2&H3&H4&H5). simpl. split_and!; done.
Qed.

(** ** Registration and emission *)

Lemma listeners_registered tipe l pr :
  isfunction l = true → slot_ok pr tipe →
  listeners (registered tipe l pr) tipe = listeners pr tipe ++ [l].
Proof.
  intros Hl Hok. unfold registered, listeners, slot_ok in *. cbv zeta.
  destruct (_events pr) as [events|]; simpl in *.
  - destruct (events !! tipe) as [[f|funs]|] eqn:He; simpl.
    + rewrite (Hok f eq_refl). simpl. by rewrite lookup_insert_eq.
    + by rewrite lookup_insert_eq.
    + by rewrite lookup_insert_eq, Hl.
  - rewrite lookup_empty. simpl. by rewrite lookup_insert_eq, Hl.
Qed.

Lemma listeners_registered_ne tipe tipe' l pr :
  tipe ≠ tipe' →
  listeners (registered tipe l pr) tipe' = listeners pr tipe'.
Proof.
  intros Hne. unfold registered, listeners. cbv zeta.
  destruct (_events pr) as [events|] eqn:Hev; simpl.
  - destruct (events !! tipe) as [[f|funs]|]; simpl;
      [destruct (isfunction f); simpl|..];
      rewrite ?Hev, ?lookup_insert_ne; done.
  - rewrite lookup_empty. simpl. by rewrite lookup_insert_ne, lookup_empty.
Qed.

Lemma slot_ok_registered tipe l pr :
  isfunction l = true → slot_ok pr tipe → slot_ok (registered tipe l pr) tipe.
Proof.
  intros Hl Hok g. unfold registered, slot_ok in *. cbv zeta.
  destruct (default ∅ (_events pr) !! tipe) as [[f|funs]|] eqn:He; simpl.
  - rewrite (Hok f eq_refl). simpl. by rewrite lookup_insert_eq.
  - by rewrite lookup_insert_eq.
  - rewrite lookup_insert_eq. by intros [= <-].
Qed.

Lemma slot_ok_registered_ne tipe tipe' l pr :
  tipe ≠ tipe' → slot_ok pr tipe' → slot_ok (registered tipe l pr) tipe'.
Proof.
  intros Hne Hok g. unfold registered, slot_ok in *. cbv zeta.
  destruct (default ∅ (_events pr) !! tipe) as [[f|funs]|];
    [destruct (isfunction f)|..]; simpl;
    rewrite ?lookup_insert_ne by done; apply Hok.
Qed.

(** X2.  [_on] appends: after the registration of a function the listeners
    of that event kind are the former ones followed by the new one, whether
    the slot was missing, held one listener or held a list; the listeners of
    the other kinds and the state and outcome of the promise are as
    before. *)
Theorem _on_appends obj tipe l pr s :
  heap s !! obj = Some pr → isfunction l = true → slot_ok pr tipe →
  ∃ pr', _on obj tipe l s = (store obj pr' s, Ok (VPromise obj)) ∧
         listeners pr' tipe = listeners pr tipe ++ [l] ∧
         (∀ tipe', tipe ≠ tipe' → listeners pr' tipe' = listeners pr tipe') ∧
         same_outcome pr pr'.
Proof.
  intros H Hl Hok. exists (registered tipe l pr). split_and!.
  - by apply _on_Some.
  - by apply listeners_registered.
  - intros tipe' Hne. by apply listeners_registered_ne.
  - apply same_outcome_registered.
Qed.

(** Registration on a fresh promise, twice: the slot holds the first
    listener alone, then the list of both. *)
Lemma _on_appends_witness :
  let s := run_pending in
  let l := VFun (User 5) in
  heap s !! 0 = Some new_promise ∧ slot_ok new_promise "promise:notified" ∧
  ∃ pr', _on 0 "promise:notified" l s
           = (store 0 pr' s, Ok (VPromise 0)) ∧
         listeners pr' "promise:notified" = [l].
Proof.
  assert (heap run_pending !! 0 = Some new_promise) as H
    by (vm_compute; reflexivity).
  assert (slot_ok new_promise "promise:notified") as Hok by (intros f Hf; done).
  destruct (_on_appends 0 "promise:notified" (VFun (User 5)) new_promise
              run_pending H eq_refl Hok) as (pr' & H1 & H2 & _).
  split_and!; [exact H | exact Hok |]. exists pr'. split; [exact H1 | exact H2].
Defined.

Lemma on_all_Some obj tipe ls pr s :
  heap s !! obj = Some pr →
  on_all obj tipe ls s = (store obj (registered_all tipe ls pr) s, Ok tt).
Proof.
  revert pr s. induction ls as [|l ls IH]; intros pr s H; simpl.
  - by rewrite store_id.
  - rewrite (bind_Ok _ _ _ _ _ (_on_Some obj tipe l pr s H)).
    rewrite (IH _ _ (store_lookup _ _ _ _ H)). by rewrite store_store.
Qed.

Lemma listeners_registered_all tipe ls pr :
  Forall (λ l, isfunction l = true) ls → slot_ok pr tipe →
  listeners (registered_all tipe ls pr) tipe = listeners pr tipe ++ ls.
Proof.
  intros Hall. revert pr. induction Hall as [|l ls Hl Hall IH]; intros pr Hok.
  - simpl. by rewrite app_nil_r.
  - change (registered_all tipe (l :: ls) pr)
      with (registered_all tipe ls (registered tipe l pr)).
    rewrite IH.
    + rewrite listeners_registered; [|done..]. by rewrite <- app_assoc.
    + by apply slot_ok_registered.
Qed.

(** X3.  Registration and emission compose: after the listeners of a list
    have been registered one by one for an event kind, [_emit] calls the
    listeners there were before and then those of the list, each one once,
    in the order of registration, and stops at the first that raises. *)
Theorem emit_calls_in_registration_order call obj tipe ls lyst pr s :
  heap s !! obj = Some pr → slot_ok pr tipe →
  Forall (λ l, isfunction l = true) ls →
  ∃ s', on_all obj tipe ls s = (s', Ok tt) ∧
        _emit call obj tipe lyst s' =
          (for_each call (listeners pr tipe ++ ls) lyst ;;
           ret (VPromise obj)) s'.
Proof.
  intros H Hok Hall. eexists. split; [by apply on_all_Some|].
  rewrite (emit_listeners _ _ _ _ _ _ (store_lookup _ _ _ _ H)).
  by rewrite listeners_registered_all.
Qed.

(** Three listeners registered on a fresh promise are called in order. *)
Lemma emit_calls_in_registration_order_witness :
  let s := run_pending in
  let ls := [VFun (User 5); VFun (User 9); VFun (User 1)] in
  let ev := VEvent (VInt 1) in
  heap s !! 0 = Some new_promise ∧
  ∃ s', on_all 0 "promise:notified" ls s = (s', Ok tt) ∧
        log (_emit (call host 5) 0 "promise:notified" [ev] s').1
          = log s' ++ [(5, [ev]); (9, [ev]); (1, [ev])].
Proof.
  assert (heap run_pending !! 0 = Some new_promise) as H
    by (vm_compute; reflexivity).
  assert (slot_ok new_promise "promise:notified") as Hok by (intros f Hf; done).
  destruct (emit_calls_in_registration_order (call host 5) 0
              "promise:notified"
              [VFun (User 5); VFun (User 9); VFun (User 1)]
              [VEvent (VInt 1)] new_promise run_pending H Hok
              ltac:(repeat constructor)) as (s' & H1 & H2).
  split; [exact H|]. exists s'. split; [exact H1|].
  rewrite H2. injection H1 as <-. vm_compute. reflexivity.
Defined.

(** ** Construction *)

Lemma no_raise_alloc_promise : no_raise alloc_promise.
Proof. intros s e. done. Qed.
#[local] Hint Resolve no_raise_alloc_promise : noraise.

(** X4.  The constructor refuses an executor that is no function object
    (nothing, a bound method, a class, any other value): the call of the
    class raises the [TypeError] of [__init__] to its caller at once.  No
    function has been called, no canceller registered, nothing scheduled;
    the object that was being initialised stays behind, pending. *)
Theorem constructor_refuses_non_function W fuel executor canceller s :
  isfunction executor = false →
  call W (S fuel) VPromiseClass [executor] s
    = (allocated s, Raise executor_error) ∧
  call W (S fuel) VPromiseClass [executor; canceller] s
    = (allocated s, Raise executor_error).
Proof.
  intros Hf. split; simpl; unfold Promise_init;
    (erewrite bind_Raise; [done|]);
    rewrite (bind_Ok _ _ _ _ _ (eq_refl : alloc_promise s = (allocated s, _)));
    by rewrite Hf.
Qed.

(** The bound method [cancel] of a promise is callable and no function. *)
Lemma constructor_refuses_non_function_witness :
  let s := run_pending in
  isfunction (VMethod 0 MCancel) = false ∧
  call host 5 VPromiseClass [VMethod 0 MCancel] s
    = (allocated s, Raise executor_error).
Proof.
  split; [reflexivity|].
  exact (proj1 (constructor_refuses_non_function host 4 (VMethod 0 MCancel)
                  VNone run_pending eq_refl)).
Defined.

Lemma no_raise_Promise_init call executor canceller :
  isfunction executor = true →
  no_raise (Promise_init call executor canceller).
Proof. intros Hf. unfold Promise_init. rewrite Hf. simpl. no_raise. Qed.



(** ** Reactions *)

Lemma is_promise_none t : is_ (VPromise t) VNone = false.
Proof. done. Qed.



(** X7.  When the handler of a reaction returns a value that is no thenable
    (a plain value, or an instance of [Promise] other than the derived
    promise) and the derived promise is still pending, the derived promise
    is fulfilled with that value.  This is so in the rejection reaction
    too: a rejection handler that returns recovers the chain. *)
Theorem handler_result_fulfils W call resolver t prt callback d w s s1 prt1 :
  heap s !! t = Some prt → _settled prt = false →
  isfunction callback = true →
  call callback [d] s = (s1, Ok w) →
  heap s1 !! t = Some prt1 → _settled prt1 = false →
  is_ (VPromise t) w = false → isfunction (getattr_then W w) = false →
  _invoke_callback W call resolver t callback (VEvent d) s =
    (scheduled (VFun (Emit t "promise:resolved" w)) []
       (store t (fulfilled_with w prt1) (with_cell (with_cell s1))), Ok tt).
Proof.
  intros H Hs Hf Hcall H1 Hs1 Hne Hplain. unfold _invoke_callback.
  rewrite (bind_Ok _ _ _ _ _ (get_promise_Some _ _ _ H)). rewrite Hs, Hf.
  erewrite bind_Ok; cycle 1.
  { unfold try_except. erewrite bind_Ok; [|done].
    erewrite bind_Ok; [|exact Hcall]. done. }
  cbn [value_ succeeded failed error].
  rewrite (bind_Ok _ _ _ _ _
             (_handle_thenable_plain W call t w s1 Hne Hplain)).
  simpl. by apply (_resolve_plain W call t prt1 w (with_cell s1)).
Qed.

(** A rejection handler that returns its argument, on promise 2 derived
    from promise 0. *)
Lemma handler_result_fulfils_witness :
  let s := run_two_reactions in
  let s1 := logged 9 [VInt 1] s in
  heap s !! 2 = Some new_promise ∧
  call host 5 (VFun (User 9)) [VInt 1] s = (s1, Ok (VInt 1)) ∧
  _invoke_callback host (call host 5) _reject 2
                   (VFun (User 9)) (VEvent (VInt 1)) s =
    (scheduled (VFun (Emit 2 "promise:resolved" (VInt 1))) []
       (store 2 (fulfilled_with (VInt 1) new_promise)
              (with_cell (with_cell s1))), Ok tt).
Proof.
  assert (heap run_two_reactions !! 2 = Some new_promise) as H
    by (vm_compute; reflexivity).
  split_and!; [exact H | reflexivity |].
  exact (handler_result_fulfils host (call host 5) _reject
           2 new_promise (VFun (User 9)) (VInt 1) (VInt 1) run_two_reactions _
           new_promise H eq_refl eq_refl eq_refl H eq_refl eq_refl eq_refl).
Defined.



(** X9.  A reaction whose derived promise is already settled (cancelled
    before the reaction ran, for one) does nothing: the handler is not
    called, nothing is scheduled, the store stays as it is.  This holds for
    the listeners [then] registers and for the reactions it schedules. *)
Theorem reaction_on_settled_target_is_noop W fuel f t prt d s :
  reaction_target f = Some t →
  heap s !! t = Some prt → _settled prt = true →
  (∀ q, reaction_receiver f = Some q → is_Some (heap s !! q)) →
  call W (S fuel) f (reaction_args f d) s = (s, Ok VNone).
Proof.
  intros Hf H Hs Hrecv.
  destruct f as [| | | | | | | |c| |]; try done.
  destruct c; try done; injection Hf as ->; simpl.
  - destruct (Hrecv self eq_refl) as [pr Hself]. unfold settled_on_done.
    rewrite (bind_Ok _ _ _ _ _ (get_promise_Some _ _ _ Hself)).
    erewrite bind_Ok; [done|]. unfold _invoke_callback.
    rewrite (bind_Ok _ _ _ _ _ (get_promise_Some _ _ _ H)). by rewrite Hs.
  - destruct (Hrecv self eq_refl) as [pr Hself]. unfold settled_on_fail.
    rewrite (bind_Ok _ _ _ _ _ (get_promise_Some _ _ _ Hself)).
    erewrite bind_Ok; [done|]. unfold _invoke_callback.
    rewrite (bind_Ok _ _ _ _ _ (get_promise_Some _ _ _ H)). by rewrite Hs.
  - erewrite bind_Ok; [done|]. unfold _invoke_callback.
    rewrite (bind_Ok _ _ _ _ _ (get_promise_Some _ _ _ H)). by rewrite Hs.
  - erewrite bind_Ok; [done|]. unfold _invoke_callback.
    rewrite (bind_Ok _ _ _ _ _ (get_promise_Some _ _ _ H)). by rewrite Hs.
  - erewrite bind_Ok; [done|]. unfold _invoke_notify_callback.
    rewrite (bind_Ok _ _ _ _ _ (get_promise_Some _ _ _ H)). by rewrite Hs.
Qed.

(** The fulfilment reaction of a promise derived from the fulfilled promise
    0, with promise 0 itself as the settled target. *)
Lemma reaction_on_settled_target_is_noop_witness :
  let s := run_fulfilled in
  let f := VFun (ThenDone 0 (VFun (User 4))) in
  heap s !! 0 = Some (promise_at s 0) ∧ _settled (promise_at s 0) = true ∧
  call host 5 f [VEvent (VInt 1)] s = (s, Ok VNone).
Proof.
  assert (heap run_fulfilled !! 0 = Some (promise_at run_fulfilled 0)) as H
    by (vm_compute; reflexivity).
  split_and!; [exact H | reflexivity |].
  exact (reaction_on_settled_target_is_noop host 4
           (VFun (ThenDone 0 (VFun (User 4)))) 0 _ (VInt 1) run_fulfilled
           eq_refl H eq_refl ltac:(intros q Hq; discriminate Hq)).
Defined.

(** X10.  Progress reactions.  On a pending derived promise, a progress
    handler that returns a value notifies the derived promise with that
    value, and without a handler the notification is passed on as it is.
    The value is not looked at: a thenable is passed on like any other
    value, and the derived promise stays pending. *)
Theorem progress_reaction_notifies call t prt progress d s :
  heap s !! t = Some prt → _settled prt = false →
  (isfunction progress = false →
   _invoke_notify_callback call t progress (VEvent d) s =
     (scheduled (VFun (Emit t "promise:notified" d)) [] s, Ok tt)) ∧
  ∀ w s1 prt1,
    isfunction progress = true →
    call progress [d] s = (s1, Ok w) →
    heap s1 !! t = Some prt1 → _settled prt1 = false →
    _invoke_notify_callback call t progress (VEvent d) s =
      (scheduled (VFun (Emit t "promise:notified" w)) [] s1, Ok tt).
Proof.
  intros H Hs. split.
  - intros Hf. unfold _invoke_notify_callback.
    rewrite (bind_Ok _ _ _ _ _ (get_promise_Some _ _ _ H)). rewrite Hs, Hf.
    erewrite bind_Ok; [|done]. by apply (_notify_pending t d prt s).
  - intros w s1 prt1 Hf Hcall H1 Hs1. unfold _invoke_notify_callback.
    rewrite (bind_Ok _ _ _ _ _ (get_promise_Some _ _ _ H)). rewrite Hs, Hf.
    erewrite bind_Ok; cycle 1.
    { unfold try_except. erewrite bind_Ok; [|done].
      erewrite bind_Ok; [|exact Hcall]. done. }
    by apply (_notify_pending t w prt1 s1).
Qed.

(** The second progress handler of promise 0 returns its argument. *)
Lemma progress_reaction_notifies_witness :
  let s := run_two_progress in
  let s1 := logged 9 [VInt 1] s in
  heap s !! 2 = Some new_promise ∧
  call host 5 (VFun (User 9)) [VInt 1] s = (s1, Ok (VInt 1)) ∧
  _invoke_notify_callback (call host 5) 2 (VFun (User 9)) (VEvent (VInt 1)) s
    = (scheduled (VFun (Emit 2 "promise:notified" (VInt 1))) [] s1, Ok tt).
Proof.
  assert (heap run_two_progress !! 2 = Some new_promise) as H
    by (vm_compute; reflexivity).
  split_and!; [exact H | reflexivity |].
  destruct (progress_reaction_notifies (call host 5) 2 new_promise
              (VFun (User 9)) (VInt 1) run_two_progress H eq_refl) as [_ Hb].
  exact (Hb (VInt 1) _ new_promise eq_refl eq_refl H eq_refl).
Defined.

(** ** [then] on a pending promise *)

Lemma then_pending W fuel p pr done fail progress s :
  heap s !! p = Some pr → _settled pr = false →
  let t := length (heap s) in
  Promise_then (call W (S fuel)) p done fail progress s =
    (store p
       (registered "promise:notified" (VFun (ThenProgress t progress))
          (registered "promise:rejected" (VFun (ThenFail t fail))
             (registered "promise:resolved" (VFun (ThenDone t done)) pr)))
       (allocated s), Ok (VPromise t)).
Proof.
  intros H Hs t. unfold Promise_then.
  rewrite (bind_Ok _ _ _ _ _ (Promise_init_empty W fuel s)).
  pose proof (allocated_lookup _ _ _ H) as Ha.
  rewrite (bind_Ok _ _ _ _ _ (get_promise_Some _ _ _ Ha)). rewrite Hs.
  erewrite bind_Ok; cycle 1.
  { erewrite bind_Ok; [|by apply _on_Some].
    erewrite bind_Ok; [done|]. apply _on_Some. by eapply store_lookup. }
  erewrite bind_Ok; cycle 1.
  { apply _on_Some. rewrite store_store. by eapply store_lookup. }
  by rewrite !store_store.
Qed.

(** X11.  [then] on a pending promise returns a new pending promise and
    appends one listener each to the resolved, rejected and notified events
    of the receiver, after the listeners registered before; the listeners
    of the cancelled event, the state and the outcome of the receiver stay
    as they are.  No handler is called, nothing is scheduled and no guard is
    allocated. *)
Theorem then_on_pending W fuel p pr done fail progress s :
  heap s !! p = Some pr → _settled pr = false →
  slot_ok pr "promise:resolved" → slot_ok pr "promise:rejected" →
  slot_ok pr "promise:notified" →
  let t := length (heap s) in
  ∃ s' pr',
    Promise_then (call W (S fuel)) p done fail progress s
      = (s', Ok (VPromise t)) ∧
    heap s' !! t = Some new_promise ∧
    heap s' !! p = Some pr' ∧ same_outcome pr pr' ∧
    listeners pr' "promise:resolved"
      = listeners pr "promise:resolved" ++ [VFun (ThenDone t done)] ∧
    listeners pr' "promise:rejected"
      = listeners pr "promise:rejected" ++ [VFun (ThenFail t fail)] ∧
    listeners pr' "promise:notified"
      = listeners pr "promise:notified" ++ [VFun (ThenProgress t progress)] ∧
    listeners pr' "promise:cancelled" = listeners pr "promise:cancelled" ∧
    queue s' = queue s ∧ log s' = log s ∧ cells s' = cells s.
Proof.
  intros H Hs Hok1 Hok2 Hok3 t.
  assert (p ≠ t) as Hne.
  { apply lookup_lt_Some in H. subst t. lia. }
  set (pr1 := registered "promise:resolved" (VFun (ThenDone t done)) pr).
  set (pr2 := registered "promise:rejected" (VFun (ThenFail t fail)) pr1).
  set (pr3 := registered "promise:notified" (VFun (ThenProgress t progress))
                         pr2).
  exists (store p pr3 (allocated s)), pr3.
  split; [by apply then_pending|]. split_and!; try done.
  - rewrite store_lookup_ne; [|done]. apply allocated_lookup_new.
  - eapply store_lookup. by apply allocated_lookup.
  - eapply same_outcome_trans; [|apply same_outcome_registered].
    eapply same_outcome_trans; apply same_outcome_registered.
  - subst pr3 pr2. rewrite !listeners_registered_ne by done.
    by apply listeners_registered.
  - subst pr3. rewrite listeners_registered_ne by done.
    subst pr2. rewrite listeners_registered; [|done|].
    + subst pr1. by rewrite listeners_registered_ne.
    + by apply slot_ok_registered_ne.
  - subst pr3. rewrite listeners_registered; [|done|].
    + subst pr2 pr1. by rewrite !listeners_registered_ne.
    + by apply slot_ok_registered_ne, slot_ok_registered_ne.
  - subst pr3 pr2 pr1. by rewrite !listeners_registered_ne.
Qed.

(** [then] with a handler on the pending promise 0. *)
Lemma then_on_pending_witness :
  let s := run_pending in
  heap s !! 0 = Some new_promise ∧
  ∃ s' pr',
    Promise_then (call host 5) 0 (VFun (User 9)) VNone VNone s
      = (s', Ok (VPromise 1)) ∧
    heap s' !! 0 = Some pr' ∧
    listeners pr' "promise:resolved" = [VFun (ThenDone 1 (VFun (User 9)))] ∧
    queue s' = queue s ∧ log s' = log s.
Proof.
  assert (heap run_pending !! 0 = Some new_promise) as H
    by (vm_compute; reflexivity).
  assert (∀ tipe, slot_ok new_promise tipe) as Hok by (intros tipe f Hf; done).
  destruct (then_on_pending host 4 0 new_promise (VFun (User 9)) VNone VNone
              run_pending H eq_refl (Hok _) (Hok _) (Hok _))
    as (s' & pr' & H1 & _ & H2 & _ & H3 & _ & _ & _ & H4 & H5 & _).
  split; [exact H|]. exists s', pr'.
  split_and!; [exact H1 | exact H2 | exact H3 | exact H4 | exact H5].
Defined.

(** ** [cancel] without a listener *)

(** X12.  [cancel()] returns the promise it is called on.  On a settled
    promise it changes nothing.  On a pending promise without a listener
    for the cancelled event it rejects the promise with
    [CancelException("Cancelled")] and schedules the emission of the
    rejected event with that reason. *)
Theorem cancel_returns_self call p pr s :
  heap s !! p = Some pr →
  (_settled pr = true → Promise_cancel call p s = (s, Ok (VPromise p))) ∧
  (_settled pr = false → listeners pr "promise:cancelled" = [] →
   Promise_cancel call p s =
     (scheduled (VFun (Emit p "promise:rejected"
                            (CancelException "Cancelled"))) []
        (store p (rejected_with (CancelException "Cancelled") pr) s),
      Ok (VPromise p))).
Proof.
  intros H. split.
  - intros Hs. unfold Promise_cancel.
    rewrite (bind_Ok _ _ _ _ _ (get_promise_Some _ _ _ H)). by rewrite Hs.
  - intros Hs Hl. by apply cancel_without_listener.
Qed.

(** [cancel()] on the pending promise 0, which has no listener. *)
Lemma cancel_returns_self_witness :
  let s := run_pending in
  let reason := CancelException "Cancelled" in
  heap s !! 0 = Some new_promise ∧
  Promise_cancel (call host 5) 0 s =
    (scheduled (VFun (Emit 0 "promise:rejected" reason)) []
       (store 0 (rejected_with reason new_promise) s), Ok (VPromise 0)).
Proof.
  assert (heap run_pending !! 0 = Some new_promise) as H
    by (vm_compute; reflexivity).
  split; [exact H|].
  exact (proj2 (cancel_returns_self (call host 5) 0 new_promise run_pending H)
               eq_refl eq_refl).
Defined.

(** ** Values the module does not take over *)

(** X13.  An instance of [Promise] handed to [resolve], other than the
    promise itself, is not taken over: [then] of an instance is a bound
    method, of which [isfunction] is false, so that the pending promise is
    fulfilled with the promise object, at once and whatever the state of
    that other promise is. *)
Theorem promise_instance_is_not_adopted W fuel p q pr s :
  heap s !! p = Some pr → _settled pr = false → p ≠ q →
  call W (S fuel) (VFun (Resolve p)) [VPromise q] s =
    (scheduled (VFun (Emit p "promise:resolved" (VPromise q))) []
       (store p (fulfilled_with (VPromise q) pr) (with_cell s)), Ok VNone).
Proof.
  intros H Hs Hne. simpl. erewrite bind_Ok; [done|].
  by apply resolve_with_promise_instance.
Qed.

(** Promise 1, derived from the pending promise 0, resolved with
    promise 0. *)
Lemma promise_instance_is_not_adopted_witness :
  let s := run_returns_derived in
  heap s !! 1 = Some new_promise ∧
  call host 5 (VFun (Resolve 1)) [VPromise 0] s =
    (scheduled (VFun (Emit 1 "promise:resolved" (VPromise 0))) []
       (store 1 (fulfilled_with (VPromise 0) new_promise) (with_cell s)),
     Ok VNone).
Proof.
  assert (heap run_returns_derived !! 1 = Some new_promise) as H
    by (vm_compute; reflexivity).
  split; [exact H|].
  exact (promise_instance_is_not_adopted host 4 1 0 new_promise
           run_returns_derived H eq_refl ltac:(lia)).
Defined.

(** ** What raises nothing *)

Lemma no_raise_Promise_then W fuel self done fail progress :
  no_raise (Promise_then (call W (S fuel)) self done fail progress).
Proof.
  unfold Promise_then. apply no_raise_bind.
  - intros s e. by rewrite Promise_init_empty.
  - intros t. no_raise.
Qed.


(** ** [then] before and after settlement *)

Lemma tick_cons W fuel fn lyst q s :
  queue s = (fn, lyst) :: q →
  tick W fuel s = call W fuel fn lyst (State (heap s) (cells s) q (log s)).
Proof. intros H. unfold tick. by rewrite H. Qed.

Lemma call_user_returns W fuel u args w s :
  code W u args = UReturn w →
  call W (S fuel) (VFun (User u)) args s = (logged u args s, Ok w).
Proof. intros H. simpl. unfold bind, log_call. by rewrite H. Qed.

Lemma listeners_no_events pr tipe : _events pr = None → listeners pr tipe = [].
Proof. intros H. unfold listeners. by rewrite H. Qed.

Lemma slot_ok_no_events pr tipe : _events pr = None → slot_ok pr tipe.
Proof. intros H f. rewrite H. simpl. by rewrite lookup_empty. Qed.

Lemma settled_registered tipe l pr :
  _settled (registered tipe l pr) = _settled pr.
Proof. by destruct (same_outcome_registered tipe l pr) as (_&_&_&_&->). Qed.

Lemma same_outcome_fulfilled_with v pr pr' :
  same_outcome pr pr' →
  same_outcome (fulfilled_with v pr) (fulfilled_with v pr').
Proof. intros (?&?&?&?&?). repeat split; simpl; congruence. Qed.

Lemma then_first_outcome W fuel p pr u v w s :
  heap s !! p = Some pr → _settled pr = false → _events pr = None →
  queue s = [] →
  code W u [v] = UReturn w →
  is_ (VPromise p) v = false → isfunction (getattr_then W v) = false →
  is_ (VPromise (length (heap s))) w = false →
  isfunction (getattr_then W w) = false →
  let t := length (heap s) in
  let s' := then_first W (S (S (S fuel))) p (VFun (User u)) v s in
  heap s' !! t = Some (fulfilled_with w new_promise) ∧
  (∃ pr', heap s' !! p = Some pr' ∧ same_outcome (fulfilled_with v pr) pr') ∧
  log s' = log s ++ [(u, [v])] ∧
  queue s' = [(VFun (Emit t "promise:resolved" w), [])].
Proof.
  intros H Hs Hev Hq Hcode Hv1 Hv2 Hw1 Hw2 t s'.
  assert (p ≠ t) as Hne.
  { apply lookup_lt_Some in H. subst t. lia. }
  set (done := VFun (User u)) in *.
  set (pr1 := registered "promise:resolved" (VFun (ThenDone t done)) pr).
  set (pr2 := registered "promise:rejected" (VFun (ThenFail t VNone)) pr1).
  set (pr3 := registered "promise:notified" (VFun (ThenProgress t VNone)) pr2).
  set (s1 := store p pr3 (allocated s)).
  assert (call W (S (S (S fuel))) (VMethod p MThen) [done] s
          = (s1, Ok (VPromise t))) as E1.
  { change (call W (S (S (S fuel))) (VMethod p MThen) [done] s)
      with (Promise_then (call W (S (S fuel))) p done VNone VNone s).
    by apply then_pending. }
  assert (heap s1 !! p = Some pr3) as H1.
  { subst s1. eapply store_lookup. by apply allocated_lookup. }
  assert (_settled pr3 = false) as Hs3.
  { subst pr3 pr2 pr1. by rewrite !settled_registered. }
  set (s2 := scheduled (VFun (Emit p "promise:resolved" v)) []
               (store p (fulfilled_with v pr3) (with_cell s1))).
  assert (call W (S (S (S fuel))) (VFun (Resolve p)) [v] s1
          = (s2, Ok VNone)) as E2.
  { simpl. erewrite bind_Ok; [done|].
    by apply (_resolve_plain W _ p pr3 v s1). }
  set (s2' := State (heap s2) (cells s2) [] (log s2)).
  assert (tick W (S (S (S fuel))) s2
          = _emit (call W (S (S fuel))) p "promise:resolved" [VEvent v] s2')
    as E3.
  { rewrite (tick_cons W _ (VFun (Emit p "promise:resolved" v)) [] [] s2).
    - done.
    - subst s2 s1. simpl. by rewrite Hq. }
  assert (heap s2' !! p = Some (fulfilled_with v pr3)) as H2.
  { subst s2' s2. simpl. apply list_lookup_insert_eq.
    by eapply lookup_lt_Some. }
  assert (heap s2' !! t = Some new_promise) as Ht2.
  { subst s2' s2 s1. simpl. rewrite !list_lookup_insert_ne by done.
    apply allocated_lookup_new. }
  assert (listeners (fulfilled_with v pr3) "promise:resolved"
          = [VFun (ThenDone t done)]) as Hl.
  { change (listeners (fulfilled_with v pr3) "promise:resolved")
      with (listeners pr3 "promise:resolved").
    subst pr3 pr2. rewrite !listeners_registered_ne by done.
    subst pr1. rewrite listeners_registered;
      [|done|by apply slot_ok_no_events].
    by rewrite listeners_no_events. }
  set (s3 := scheduled (VFun (Emit t "promise:resolved" w)) []
               (store t (fulfilled_with w new_promise)
                      (with_cell (with_cell (logged u [v] s2'))))).
  assert (tick W (S (S (S fuel))) s2 = (s3, Ok (VPromise p))) as E4.
  { rewrite E3, (emit_listeners _ _ _ _ _ _ H2), Hl. cbn [for_each].
    erewrite bind_Ok; [done|]. erewrite bind_Ok; [done|].
    change (call W (S (S fuel)) (VFun (ThenDone t done)) [VEvent v] s2')
      with ((_invoke_callback W (call W (S fuel)) (_resolve W (call W (S fuel)))
               t done (VEvent v) ;; ret VNone) s2').
    erewrite bind_Ok; [done|].
    eapply handler_result_fulfils; try done.
    by apply call_user_returns. }
  assert (s' = s3) as ->.
  { subst s'. unfold then_first. cbn [foldl step].
    rewrite E1. cbn [fst]. rewrite E2. cbn [fst]. by rewrite E4. }
  split_and!.
  - subst s3. simpl. apply list_lookup_insert_eq.
    apply lookup_lt_Some in Ht2. by simpl in Ht2.
  - exists (fulfilled_with v pr3). split.
    + subst s3. simpl. rewrite list_lookup_insert_ne by done. exact H2.
    + apply same_outcome_fulfilled_with. subst pr3 pr2 pr1.
      eapply same_outcome_trans; [|apply same_outcome_registered].
      eapply same_outcome_trans; apply same_outcome_registered.
  - done.
  - subst s3 s2' s2 s1. done.
Qed.

Lemma then_last_outcome W fuel p pr u v w s :
  heap s !! p = Some pr → _settled pr = false → consistent pr →
  _events pr = None → queue s = [] →
  code W u [v] = UReturn w →
  is_ (VPromise p) v = false → isfunction (getattr_then W v) = false →
  is_ (VPromise (length (heap s))) w = false →
  isfunction (getattr_then W w) = false →
  let t := length (heap s) in
  let s' := then_last W (S (S (S fuel))) p (VFun (User u)) v s in
  heap s' !! t = Some (fulfilled_with w new_promise) ∧
  (∃ pr', heap s' !! p = Some pr' ∧ same_outcome (fulfilled_with v pr) pr') ∧
  log s' = log s ++ [(u, [v])] ∧
  queue s' = [(VFun (Emit t "promise:resolved" w), [])].
Proof.
  intros H Hs Hc Hev Hq Hcode Hv1 Hv2 Hw1 Hw2 t s'.
  assert (p ≠ t) as Hne.
  { apply lookup_lt_Some in H. subst t. lia. }
  assert (_rejected pr = false) as Hr.
  { destruct Hc as [Hc _]. rewrite Hs in Hc.
    symmetry in Hc. by apply orb_false_elim in Hc as [_ ?]. }
  set (done := VFun (User u)) in *.
  set (prf := fulfilled_with v pr).
  set (s1 := scheduled (VFun (Emit p "promise:resolved" v)) []
               (store p prf (with_cell s))).
  assert (call W (S (S (S fuel))) (VFun (Resolve p)) [v] s
          = (s1, Ok VNone)) as E1.
  { simpl. erewrite bind_Ok; [done|]. by apply (_resolve_plain W _ p pr v s). }
  assert (heap s1 !! p = Some prf) as H1.
  { subst s1. simpl. apply list_lookup_insert_eq. by eapply lookup_lt_Some. }
  assert (length (heap s1) = t) as Hlen.
  { subst s1. simpl. by rewrite length_insert. }
  set (prn := registered "promise:notified" (VFun (ThenProgress t VNone)) prf).
  set (s2 := store p prn
               (scheduled (VFun (SettledDone t done p)) [] (allocated s1))).
  assert (call W (S (S (S fuel))) (VMethod p MThen) [done] s1
          = (s2, Ok (VPromise t))) as E2.
  { change (call W (S (S (S fuel))) (VMethod p MThen) [done] s1)
      with (Promise_then (call W (S (S fuel))) p done VNone VNone s1).
    rewrite (then_settled W (S fuel) p prf done VNone VNone s1 H1 eq_refl).
    rewrite Hlen. cbn [_fulfilled _rejected prf fulfilled_with].
    by rewrite Hr. }
  assert (listeners prn "promise:resolved" = []) as Hl.
  { subst prn. rewrite listeners_registered_ne by done.
    by apply listeners_no_events. }
  assert (heap s2 !! p = Some prn) as H2.
  { subst s2. eapply store_lookup. by apply allocated_lookup. }
  assert (heap s2 !! t = Some new_promise) as Ht2.
  { subst s2. rewrite store_lookup_ne by done. rewrite <- Hlen.
    apply allocated_lookup_new. }
  set (s3 := State (heap s2) (cells s2) [(VFun (SettledDone t done p), [])]
                   (log s2)).
  assert (tick W (S (S (S fuel))) s2 = (s3, Ok (VPromise p))) as E3.
  { rewrite (tick_cons W _ (VFun (Emit p "promise:resolved" v)) []
               [(VFun (SettledDone t done p), [])] s2).
    - change (call W (S (S (S fuel))) (VFun (Emit p "promise:resolved" v)) []
                   _)
        with (_emit (call W (S (S fuel))) p "promise:resolved" [VEvent v] s3).
      by rewrite (emit_listeners _ _ _ _ _ _ (H2 : heap s3 !! p = _)), Hl.
    - subst s2 s1. simpl. by rewrite Hq. }
  set (s3' := State (heap s2) (cells s2) [] (log s2)).
  set (s4 := scheduled (VFun (Emit t "promise:resolved" w)) []
               (store t (fulfilled_with w new_promise)
                      (with_cell (with_cell (logged u [v] s3'))))).
  assert (tick W (S (S (S fuel))) s3 = (s4, Ok VNone)) as E4.
  { rewrite (tick_cons W _ (VFun (SettledDone t done p)) [] [] s3 eq_refl).
    change (call W (S (S (S fuel))) (VFun (SettledDone t done p)) [] _)
      with (settled_on_done W (call W (S (S fuel))) t done p s3').
    unfold settled_on_done.
    rewrite (bind_Ok _ _ _ _ _
               (get_promise_Some _ _ _ (H2 : heap s3' !! p = _))).
    erewrite bind_Ok; [done|].
    assert (_fulfillment_value prn = v) as ->.
    { subst prn.
      by destruct (same_outcome_registered "promise:notified"
                     (VFun (ThenProgress t VNone)) prf) as (_&_&_&->&_). }
    exact (handler_result_fulfils W (call W (S (S fuel))) _ t new_promise
             done v w s3' (logged u [v] s3') new_promise Ht2 eq_refl eq_refl
             (call_user_returns _ _ _ _ _ _ Hcode) Ht2 eq_refl Hw1 Hw2). }
  assert (s' = s4) as ->.
  { subst s'. unfold then_last. cbn [foldl step].
    rewrite E1. cbn [fst]. rewrite E2. cbn [fst]. rewrite E3. cbn [fst].
    by rewrite E4. }
  split_and!.
  - subst s4. simpl. apply list_lookup_insert_eq.
    apply lookup_lt_Some in Ht2. by simpl in Ht2.
  - exists prn. split.
    + subst s4. simpl. rewrite list_lookup_insert_ne by done. exact H2.
    + subst prn. apply same_outcome_registered.
  - done.
  - subst s4 s3' s2 s1. done.
Qed.

(** X15.  [then] before or after settlement.  A pending promise without
    listeners is fulfilled with a plain value [v], and [then] is called on
    it with a handler that returns a plain value [w].  Whether [then] is
    called before the promise is resolved or after, once the scheduler has
    run the calls the two operations put in its queue the handler has been
    called exactly once, with [v], the derived promise is fulfilled with
    [w], the receiver is fulfilled with [v], and what is left in the queue
    is the emission of the resolved event of the derived promise. *)
Theorem then_before_or_after_fulfilment W fuel p pr u v w s :
  heap s !! p = Some pr → _settled pr = false → consistent pr →
  _events pr = None → queue s = [] →
  code W u [v] = UReturn w →
  is_ (VPromise p) v = false → isfunction (getattr_then W v) = false →
  is_ (VPromise (length (heap s))) w = false →
  isfunction (getattr_then W w) = false →
  let t := length (heap s) in
  let done := VFun (User u) in
  ∀ s', s' = then_first W (S (S (S fuel))) p done v s ∨
        s' = then_last W (S (S (S fuel))) p done v s →
    heap s' !! t = Some (fulfilled_with w new_promise) ∧
    (∃ pr', heap s' !! p = Some pr' ∧
            same_outcome (fulfilled_with v pr) pr') ∧
    log s' = log s ++ [(u, [v])] ∧
    queue s' = [(VFun (Emit t "promise:resolved" w), [])].
Proof.
  intros H Hs Hc Hev Hq Hcode Hv1 Hv2 Hw1 Hw2 t done s' [->| ->].
  - by eapply then_first_outcome.
  - by eapply then_last_outcome.
Qed.

(** The pending promise 0 of the host program, fulfilled with [3], with a
    handler that returns its argument. *)
Lemma then_before_or_after_fulfilment_witness :
  let s := run_pending in
  let done := VFun (User 9) in
  heap s !! 0 = Some new_promise ∧ queue s = [] ∧
  code host 9 [VInt 3] = UReturn (VInt 3) ∧
  heap (then_first host 5 0 done (VInt 3) s) !! 1
    = Some (fulfilled_with (VInt 3) new_promise) ∧
  heap (then_last host 5 0 done (VInt 3) s) !! 1
    = Some (fulfilled_with (VInt 3) new_promise) ∧
  log (then_first host 5 0 done (VInt 3) s)
    = log (then_last host 5 0 done (VInt 3) s).
Proof.
  assert (heap run_pending !! 0 = Some new_promise) as H
    by (vm_compute; reflexivity).
  pose proof (then_before_or_after_fulfilment host 2 0 new_promise 9
                (VInt 3) (VInt 3) run_pending H eq_refl
                consistent_new_promise eq_refl eq_refl eq_refl
                eq_refl eq_refl eq_refl eq_refl) as Hboth.
  destruct (Hboth _ (or_introl eq_refl)) as (Ha & _ & Hla & _).
  destruct (Hboth _ (or_intror eq_refl)) as (Hb & _ & Hlb & _).
  split_and!; [exact H | reflexivity | reflexivity | exact Ha | exact Hb |].
  by rewrite Hla, Hlb.
Defined.

(** ** Delivery of a notification *)

Lemma notified_all_nil v s : notified_all v [] s = s.
Proof. destruct s. unfold notified_all. simpl. by rewrite !app_nil_r. Qed.

Lemma notified_all_cons v h hs s :
  notified_all v hs
    (scheduled (VFun (Emit (derived h) "promise:notified" (returned h))) []
               (logged (handler h) [v] s))
  = notified_all v (h :: hs) s.
Proof. unfold notified_all. simpl. by rewrite <- !app_assoc. Qed.

Lemma for_each_progress W fuel v hs s :
  Forall (λ h, (∃ prt, heap s !! derived h = Some prt ∧ _settled prt = false) ∧
               code W (handler h) [v] = UReturn (returned h)) hs →
  for_each (call W (S (S fuel))) (map progress_listener hs) [VEvent v] s
  = (notified_all v hs s, Ok tt).
Proof.
  intros Hall. revert s Hall. induction hs as [|h hs IH]; intros s Hall.
  - simpl. by rewrite notified_all_nil.
  - apply Forall_cons in Hall as [[(prt & Ht & Hs) Hcode] Hall].
    cbn [map for_each].
    erewrite bind_Ok; cycle 1.
    { unfold progress_listener.
      change (call W (S (S fuel)) (VFun (ThenProgress ?t ?f)) [?e] s)
        with ((_invoke_notify_callback (call W (S fuel)) t f e ;; ret VNone) s).
      erewrite bind_Ok; [done|].
      destruct (progress_reaction_notifies (call W (S fuel)) (derived h) prt
                  (VFun (User (handler h))) v s Ht Hs) as [_ Hb].
      apply (Hb (returned h) (logged (handler h) [v] s) prt eq_refl
                (call_user_returns _ _ _ _ _ _ Hcode) Ht Hs). }
    rewrite IH; [by rewrite notified_all_cons|].
    eapply Forall_impl; [exact Hall|]. by intros h' [? ?].
Qed.

(** X16.  Delivery of a notification.  When the scheduler runs the emission
    of a notified event on a promise whose progress handlers are functions
    of the host program that return, with pending derived promises, every
    handler is called once with the notification, in the order of
    registration, and the value each one returns is scheduled, in the same
    order, as the notification of its derived promise.  No promise changes
    state. *)
Theorem notification_reaches_every_handler W fuel p pr v hs s :
  heap s !! p = Some pr →
  listeners pr "promise:notified" = map progress_listener hs →
  Forall (λ h, (∃ prt, heap s !! derived h = Some prt ∧ _settled prt = false) ∧
               code W (handler h) [v] = UReturn (returned h)) hs →
  call W (S (S (S fuel))) (VFun (Emit p "promise:notified" v)) [] s
  = (notified_all v hs s, Ok (VPromise p)).
Proof.
  intros H Hl Hall.
  change (call W (S (S (S fuel))) (VFun (Emit p "promise:notified" v)) [] s)
    with (_emit (call W (S (S fuel))) p "promise:notified" [VEvent v] s).
  rewrite (emit_listeners _ _ _ _ _ _ H), Hl.
  by rewrite (bind_Ok _ _ _ _ _ (for_each_progress W fuel v hs s Hall)).
Qed.

(** The two progress handlers of promise 0 that return their argument. *)
Lemma notification_reaches_every_handler_witness :
  let s := foldl (step host) run_pending
             [(5, Call (VMethod 0 MProgress) [VFun (User 9)]);
              (5, Call (VMethod 0 MProgress) [VFun (User 9)])] in
  let hs := [ProgressHandler 1 9 (VInt 4); ProgressHandler 2 9 (VInt 4)] in
  heap s !! 0 = Some (promise_at s 0) ∧
  listeners (promise_at s 0) "promise:notified" = map progress_listener hs ∧
  call host 5 (VFun (Emit 0 "promise:notified" (VInt 4))) [] s
  = (notified_all (VInt 4) hs s, Ok (VPromise 0)).
Proof.
  set (s := foldl (step host) run_pending
             [(5, Call (VMethod 0 MProgress) [VFun (User 9)]);
              (5, Call (VMethod 0 MProgress) [VFun (User 9)])]).
  assert (heap s !! 0 = Some (promise_at s 0)) as H
    by (vm_compute; reflexivity).
  assert (listeners (promise_at s 0) "promise:notified"
          = map progress_listener
                [ProgressHandler 1 9 (VInt 4); ProgressHandler 2 9 (VInt 4)])
    as Hl by (vm_compute; reflexivity).
  split_and!; [exact H | exact Hl |].
  apply (notification_reaches_every_handler host 2 0 _ (VInt 4) _ s H Hl).
  repeat constructor; exists new_promise; split; vm_compute; reflexivity.
Defined.
